(** * libbitcoin: the PostgreSQL block store and its chain organizer

    A shallow embedding of [src/storage/postgresql_storage.cpp]:
    the byte-array/hex-string codec ([serialize_bytes],
    [deserialize_bytes]), the row insertion path of [store], and the
    interval-forest organizer [organize_blockchain], followed by the
    properties established about them. *)

From Stdlib Require Import String Ascii NArith ZArith Bool Lia List.
From Stdlib Require Import Strings.Byte.
From Stdlib Require Import Permutation Sorted.
Import ListNotations.

Local Open Scope N_scope.

(* ================================================================== *)
(** ** Hexadecimal text, as [std::stringstream] writes and reads it   *)
(* ================================================================== *)

Module Hex.

(** The digit characters [operator<<] uses under [std::hex]
    (lower case, no [std::uppercase]). *)
Definition digit (n : N) : ascii :=
  match n with
  | 0 => "0" | 1 => "1" | 2 => "2" | 3 => "3" | 4 => "4" | 5 => "5"
  | 6 => "6" | 7 => "7" | 8 => "8" | 9 => "9" | 10 => "a" | 11 => "b"
  | 12 => "c" | 13 => "d" | 14 => "e" | _ => "f"
  end%char.

(** Digits of [n] in base 16, most significant first; [fuel] bounds the
    number of digits produced. *)
Fixpoint digits_aux (fuel : nat) (n : N) (acc : list ascii) : list ascii :=
  match fuel with
  | O => acc
  | S fuel' =>
      let acc' := digit (n mod 16) :: acc in
      if n / 16 =? 0 then acc' else digits_aux fuel' (n / 16) acc'
  end.

(** [ss << std::hex << val] for a non-negative [val]. *)
Definition show (n : N) : list ascii :=
  digits_aux (S (N.to_nat (N.size n))) n [].

(** [std::setw(w) << std::setfill(c)]: pad on the left up to width [w]. *)
Definition setw_fill (w : nat) (c : ascii) (field : list ascii) : list ascii :=
  repeat c (w - length field) ++ field.

(** The value of a character accepted as a digit by [operator>>] under
    [std::hex]. *)
Definition value (c : ascii) : option N :=
  let n := N_of_ascii c in
  if (48 <=? n) && (n <=? 57) then Some (n - 48)
  else if (97 <=? n) && (n <=? 102) then Some (n - 87)
  else if (65 <=? n) && (n <=? 70) then Some (n - 55)
  else None.

(** [std::isspace] in the "C" locale. *)
Definition is_space (c : ascii) : bool :=
  let n := N_of_ascii c in
  (n =? 32) || ((9 <=? n) && (n <=? 13)).

End Hex.

(* ================================================================== *)
(** ** The input side of a [std::stringstream]                        *)
(* ================================================================== *)

Module Stream.

(** What is left to read, and the two state bits [good()] looks at. *)
Record t := mk { buf : list ascii; eofbit : bool; failbit : bool }.

Definition of_string (s : string) : t :=
  mk (list_ascii_of_string s) false false.

Definition good (ss : t) : bool := negb (eofbit ss) && negb (failbit ss).

(** The sentry of a formatted input function skips leading white space. *)
Fixpoint skipws (l : list ascii) : list ascii :=
  match l with
  | c :: l' => if Hex.is_space c then skipws l' else l
  | [] => []
  end.

(** Accumulate hexadecimal digits; stops in front of the first
    character that is not one. *)
Fixpoint digits (l : list ascii) (acc : N) : N * list ascii :=
  match l with
  | c :: l' =>
      match Hex.value c with
      | Some v => digits l' (16 * acc + v)
      | None => (acc, l)
      end
  | [] => (acc, [])
  end.

Definition INT_MAX : Z := 2147483647.

(** [ss >> val] for an [int val] under [std::hex], on a stream that is
    [good()].  The fields modelled are runs of hexadecimal digits
    separated by white space, which is all [serialize_bytes] writes
    (no sign, no [0x] prefix).
    - Only white space left: the sentry fails, [eofbit] and [failbit]
      are set and [val] keeps its value.
    - No digit at the front: [failbit], and zero is stored.
    - Otherwise the digits are consumed; running into the end of the
      buffer while doing so sets [eofbit]; a value that does not fit
      an [int] stores [INT_MAX] and sets [failbit]. *)
Definition extract_int (val : Z) (ss : t) : Z * t :=
  match skipws (buf ss) with
  | [] => (val, mk [] true true)
  | c :: rest =>
      match Hex.value c with
      | None => (0%Z, mk (c :: rest) false true)
      | Some _ =>
          let '(n, rest') := digits (c :: rest) 0 in
          let eof := match rest' with [] => true | _ => false end in
          if (Z.of_N n <=? INT_MAX)%Z
          then (Z.of_N n, mk rest' eof false)
          else (INT_MAX, mk rest' eof true)
      end
  end.

End Stream.

(* ================================================================== *)
(** ** [serialize_bytes] and [deserialize_bytes]                      *)
(* ================================================================== *)

(** [data_chunk] is a vector of bytes; [hash_digest] a fixed array of
    them.  Both are iterated the same way by the template. *)
Definition data_chunk := list byte.
Definition hash_digest := list byte.

(** Removing the last character: [ret.resize(ret.size() - 1)] on a
    non-empty string. *)
Fixpoint drop_last (l : list ascii) : list ascii :=
  match l with
  | [] => []
  | [_] => []
  | c :: l' => c :: drop_last l'
  end.

(** What the loop of [serialize_bytes] writes to [ss] for one element:
    [ss << std::setw(2) << std::setfill('0') << val << ' ']; the [int val]
    is the byte's value. *)
Definition serialize_byte (b : byte) : list ascii :=
  Hex.setw_fill 2 "0"%char (Hex.show (Byte.to_N b)) ++ [" "%char].

(** [serialize_bytes(data)].  On empty [data] the stream holds the empty
    string, [ret.size() - 1] wraps around to the largest [size_t] and
    [resize] throws [std::length_error]: [None]. *)
Definition serialize_bytes (data : list byte) : option string :=
  let ret := flat_map serialize_byte data in
  match ret with
  | [] => None
  | _ => Some (string_of_list_ascii (drop_last ret))
  end.

(** Storing an [int] in a [data_chunk] element converts it to a byte,
    that is takes it modulo 256. *)
Definition byte_of_int (val : Z) : byte :=
  match Byte.of_N (Z.to_N (val mod 256)) with
  | Some b => b
  | None => x00
  end.

(** The loop [for (int val; ss.good(); ss >> val) stack.push_back(val);]:
    the test comes first, then the body, then the extraction.  [fuel]
    bounds the number of iterations. *)
Fixpoint deserialize_loop (fuel : nat) (val : Z) (ss : Stream.t)
    (stack : list byte) : list byte :=
  match fuel with
  | O => stack
  | S fuel' =>
      if Stream.good ss then
        let stack' := stack ++ [byte_of_int val] in
        let '(val', ss') := Stream.extract_int val ss in
        deserialize_loop fuel' val' ss' stack'
      else stack
  end.

(** [deserialize_bytes(byte_stream)].  [int val] is declared without an
    initial value; [uninit] stands for whatever it holds when the loop is
    entered.  Every extraction that leaves the stream good consumes a
    character, so [length + 2] iterations always suffice. *)
Definition deserialize_bytes (uninit : Z) (byte_stream : string) : data_chunk :=
  deserialize_loop (S (S (String.length byte_stream))) uninit
    (Stream.of_string byte_stream) [].

(* ================================================================== *)
(** ** SQL values and conditions                                      *)
(* ================================================================== *)

Module Sql.

(** A nullable integer column.  The schema is not part of the source
    file; the columns are the non-negative integers of the data model,
    and the arithmetic of an [UPDATE] is the database's own (it does
    not wrap around). *)
Definition value := option N.

(** Comparisons with a bound parameter: unknown ([None]) on [NULL]. *)
Definition ge (v : value) (p : N) : option bool :=
  match v with Some x => Some (p <=? x) | None => None end.
Definition le (v : value) (p : N) : option bool :=
  match v with Some x => Some (x <=? p) | None => None end.
Definition gt (v : value) (p : N) : option bool :=
  match v with Some x => Some (p <? x) | None => None end.

(** Three-valued [AND]. *)
Definition and (a b : option bool) : option bool :=
  match a, b with
  | Some false, _ | _, Some false => Some false
  | Some true, Some true => Some true
  | _, _ => None
  end.

(** A [WHERE] clause keeps a row only when its condition is true. *)
Definition holds (c : option bool) : bool :=
  match c with Some true => true | _ => false end.

Definition is_null (v : value) : bool :=
  match v with None => true | Some _ => false end.
Definition is_not_null (v : value) : bool := negb (is_null v).

(** [v + 1] in a [SET] clause. *)
Definition succ (v : value) : value :=
  match v with Some x => Some (x + 1) | None => None end.

End Sql.

(* ================================================================== *)
(** ** Tables                                                         *)
(* ================================================================== *)

(** A row of [blocks].  [depth], [span_left] and [span_right] are not
    named by the [INSERT] of [store] and so start out [NULL]. *)
Record block_row := mk_block_row {
  block_id : N;
  block_hash : string;
  version : N;
  prev_block_hash : string;
  merkle : string;
  when_created : N;
  bits_head : N;
  bits_body : N;
  nonce : N;
  depth : Sql.value;
  span_left : Sql.value;
  span_right : Sql.value
}.

Module Transactions.
Record row := mk {
  transaction_id : N; transaction_hash : string; version : N; locktime : N
}.
End Transactions.

Module Inputs.
Record row := mk {
  input_id : N; parent_id : N; index_in_parent : N; script_id : N;
  previous_output_id : Sql.value; previous_output_hash : string;
  sequence : N
}.
End Inputs.

Module Outputs.
Record row := mk {
  output_id : N; parent_id : N; index_in_parent : N; script_id : N;
  value : N; output_type : string; address : option string
}.
End Outputs.

Module Operations.
Record row := mk { opcode : string; script_id : N; data : option string }.
End Operations.

Module TransactionsParents.
Record row := mk { transaction_id : N; block_id : N; index_in_block : N }.
End TransactionsParents.

(** Everything a call of the storage object can read or change: the
    tables behind [sql_], the database's sequences (the last value each
    one handed out), and the calls made so far to a completion handler
    (each with the error flag it was given). *)
Record state := mk_state {
  blocks : list block_row;
  blocks_block_id_seq : N;
  transactions : list Transactions.row;
  transactions_transaction_id_seq : N;
  inputs : list Inputs.row;
  inputs_input_id_seq : N;
  outputs : list Outputs.row;
  outputs_output_id_seq : N;
  operations : list Operations.row;
  script_sequence : N;
  transactions_parents : list TransactionsParents.row;
  handled : list bool
}.

Definition with_blocks (st : state) (rows : list block_row) (seq : N) : state :=
  mk_state rows seq
    (transactions st) (transactions_transaction_id_seq st)
    (inputs st) (inputs_input_id_seq st)
    (outputs st) (outputs_output_id_seq st)
    (operations st) (script_sequence st)
    (transactions_parents st) (handled st).

Definition with_transactions (st : state) (rows : list Transactions.row)
    (seq : N) : state :=
  mk_state (blocks st) (blocks_block_id_seq st) rows seq
    (inputs st) (inputs_input_id_seq st)
    (outputs st) (outputs_output_id_seq st)
    (operations st) (script_sequence st)
    (transactions_parents st) (handled st).

Definition with_inputs (st : state) (rows : list Inputs.row) (seq : N) : state :=
  mk_state (blocks st) (blocks_block_id_seq st)
    (transactions st) (transactions_transaction_id_seq st) rows seq
    (outputs st) (outputs_output_id_seq st)
    (operations st) (script_sequence st)
    (transactions_parents st) (handled st).

Definition with_outputs (st : state) (rows : list Outputs.row) (seq : N) : state :=
  mk_state (blocks st) (blocks_block_id_seq st)
    (transactions st) (transactions_transaction_id_seq st)
    (inputs st) (inputs_input_id_seq st) rows seq
    (operations st) (script_sequence st)
    (transactions_parents st) (handled st).

Definition with_operations (st : state) (rows : list Operations.row) : state :=
  mk_state (blocks st) (blocks_block_id_seq st)
    (transactions st) (transactions_transaction_id_seq st)
    (inputs st) (inputs_input_id_seq st)
    (outputs st) (outputs_output_id_seq st)
    rows (script_sequence st)
    (transactions_parents st) (handled st).

Definition with_script_sequence (st : state) (seq : N) : state :=
  mk_state (blocks st) (blocks_block_id_seq st)
    (transactions st) (transactions_transaction_id_seq st)
    (inputs st) (inputs_input_id_seq st)
    (outputs st) (outputs_output_id_seq st)
    (operations st) seq
    (transactions_parents st) (handled st).

Definition with_transactions_parents (st : state)
    (rows : list TransactionsParents.row) : state :=
  mk_state (blocks st) (blocks_block_id_seq st)
    (transactions st) (transactions_transaction_id_seq st)
    (inputs st) (inputs_input_id_seq st)
    (outputs st) (outputs_output_id_seq st)
    (operations st) (script_sequence st)
    rows (handled st).

Definition with_handled (st : state) (calls : list bool) : state :=
  mk_state (blocks st) (blocks_block_id_seq st)
    (transactions st) (transactions_transaction_id_seq st)
    (inputs st) (inputs_input_id_seq st)
    (outputs st) (outputs_output_id_seq st)
    (operations st) (script_sequence st)
    (transactions_parents st) calls.

(* ================================================================== *)
(** ** Calls that read and write the state, and may throw             *)
(* ================================================================== *)

(** What can be thrown on the paths modelled. *)
Inductive exn :=
| length_error          (* [std::string::resize] beyond [max_size()]  *)
| multiple_rows_query   (* [cppdb::row] on a result of several rows   *)
| null_value_fetch      (* [cppdb::result::get] on a [NULL] column    *)
| assertion_failure.    (* [BITCOIN_ASSERT]                           *)

(** The outcome of a call: a value, or an exception; either way the
    state it leaves behind (nothing here runs inside a transaction that
    would be rolled back, except where said). *)
Inductive outcome (A : Type) :=
| Ret (a : A) (st : state)
| Throw (e : exn) (st : state).
Arguments Ret {A} a st.
Arguments Throw {A} e st.

Definition M (A : Type) := state -> outcome A.

Definition ret {A} (a : A) : M A := fun st => Ret a st.
Definition throw {A} (e : exn) : M A := fun st => Throw e st.
Definition bind {A B} (c : M A) (k : A -> M B) : M B :=
  fun st =>
    match c st with
    | Ret a st' => k a st'
    | Throw e st' => Throw e st'
    end.

Declare Scope storage_scope.
Delimit Scope storage_scope with storage.
Notation "x <- c ;; k" := (bind c (fun x => k))
  (at level 61, c at next level, right associativity) : storage_scope.
Notation "c ;; k" := (bind c (fun _ => k))
  (at level 61, right associativity) : storage_scope.
Local Open Scope storage_scope.

(** The state a call leaves behind, however it ended. *)
Definition final {A} (o : outcome A) : state :=
  match o with Ret _ st => st | Throw _ st => st end.

(** Reading through [sql_], and replacing the state. *)
Definition query {A} (q : state -> A) : M A := fun st => Ret (q st) st.
Definition exec (f : state -> state) : M unit := fun st => Ret tt (f st).

(** A value that may throw when it is computed. *)
Definition lift {A} (e : exn) (o : option A) : M A :=
  match o with Some a => ret a | None => throw e end.

(** [res.get<size_t>(col)]: throws on [NULL]. *)
Definition get_size_t (v : Sql.value) : M N := lift null_value_fetch v.

(** What [cppdb::row] makes of the rows a query selects: an empty
    result when there is none, the row when there is one, and no result
    at all when there are several. *)
Definition single_row {A} (result : list A) : option (option A) :=
  match result with
  | [] => Some None
  | [a] => Some (Some a)
  | _ => None
  end.

(** [sql_ << ... << cppdb::row]: runs the query and fetches a single
    row; [cppdb::multiple_rows_query] is thrown when the query selects
    more than one. *)
Definition row {A} (q : state -> list A) : M (option A) :=
  fun st => lift multiple_rows_query (single_row (q st)) st.

(** [serialize_bytes] as a call. *)
Definition serialize (data : list byte) : M string :=
  lift length_error (serialize_bytes data).

(** [handle_store(ec)]. *)
Definition handle_store (ec : bool) : M unit :=
  exec (fun st => with_handled st (handled st ++ [ec])).

(** Running a call for every element of a sequence, in order, with its
    index: the [for] loops over containers. *)
Fixpoint for_each {A} (f : N -> A -> M unit) (i : N) (l : list A) : M unit :=
  match l with
  | [] => ret tt
  | a :: l' => f i a ;; for_each f (i + 1) l'
  end.

(* ================================================================== *)
(** ** The messages handed to [store]                                 *)
(* ================================================================== *)

Module Message.
Section Opcode.
(** The opcode enumeration is declared elsewhere. *)
Variable opcode : Type.

Record operation := mk_operation { code : opcode; data : data_chunk }.

Record transaction_input := mk_input {
  hash : hash_digest;
  input_script : list operation;   (* [input_script.operations()] *)
  sequence : N
}.

Record transaction_output := mk_output {
  value : N;
  output_script : list operation   (* [output_script.operations()] *)
}.

Record transaction := mk_transaction {
  version : N;
  locktime : N;
  inputs : list transaction_input;
  outputs : list transaction_output
}.

Record block := mk_block {
  block_version : N;
  prev_block : hash_digest;
  merkle_root : hash_digest;
  timestamp : N;
  bits : N;
  block_nonce : N;
  transactions : list transaction
}.
End Opcode.

Arguments code {opcode}.
Arguments data {opcode}.
Arguments hash {opcode}.
Arguments input_script {opcode}.
Arguments sequence {opcode}.
Arguments value {opcode}.
Arguments output_script {opcode}.
Arguments version {opcode}.
Arguments locktime {opcode}.
Arguments inputs {opcode}.
Arguments outputs {opcode}.
Arguments block_version {opcode}.
Arguments prev_block {opcode}.
Arguments merkle_root {opcode}.
Arguments timestamp {opcode}.
Arguments bits {opcode}.
Arguments block_nonce {opcode}.
Arguments transactions {opcode}.
End Message.

(* ================================================================== *)
(** ** [postgresql_storage::store] and the [insert] overloads         *)
(* ================================================================== *)

Section Store.

(** Declared in other files of the library: the opcodes and their
    names, and the two hash functions. *)
Variable opcode : Type.
Variable opcode_to_string : opcode -> string.
Variable hash_transaction : Message.transaction opcode -> hash_digest.
Variable hash_block_header : Message.block opcode -> hash_digest.

(** [insert(operation, script_id)] *)
Definition insert_operation (operation : Message.operation opcode)
    (script_id : N) : M unit :=
  let opcode_repr := opcode_to_string (Message.code operation) in
  if (List.length (Message.data operation) =? 0)%nat then
    exec (fun st => with_operations st
            (operations st ++ [Operations.mk opcode_repr script_id None]))
  else
    byte_stream <- serialize (Message.data operation) ;;
    exec (fun st => with_operations st
            (operations st
             ++ [Operations.mk opcode_repr script_id (Some byte_stream)])).

(** [SELECT nextval('script_sequence')] *)
Definition nextval_script_sequence : M N :=
  fun st =>
    let v := script_sequence st + 1 in
    Ret v (with_script_sequence st v).

(** [insert_script(operations)] *)
Definition insert_script (ops : list (Message.operation opcode)) : M N :=
  script_id <- nextval_script_sequence ;;
  for_each (fun _ operation => insert_operation operation script_id) 0 ops ;;
  ret script_id.

(** [insert(transaction_input, transaction_id, index_in_parent)] *)
Definition insert_input (input : Message.transaction_input opcode)
    (transaction_id index_in_parent : N) : M unit :=
  script_id <- insert_script (Message.input_script input) ;;
  hash <- serialize (Message.hash input) ;;
  exec (fun st =>
          let input_id := inputs_input_id_seq st + 1 in
          with_inputs st
            (inputs st
             ++ [Inputs.mk input_id transaction_id index_in_parent
                   script_id None hash (Message.sequence input)])
            input_id).

(** [insert(transaction_output, transaction_id, index_in_parent)] *)
Definition insert_output (output : Message.transaction_output opcode)
    (transaction_id index_in_parent : N) : M unit :=
  script_id <- insert_script (Message.output_script output) ;;
  exec (fun st =>
          let output_id := outputs_output_id_seq st + 1 in
          with_outputs st
            (outputs st
             ++ [Outputs.mk output_id transaction_id index_in_parent
                   script_id (Message.value output) "other" None])
            output_id).

(** [insert(transaction)]: returns the new [transaction_id]. *)
Definition insert_transaction (transaction : Message.transaction opcode)
    : M N :=
  let transaction_hash := hash_transaction transaction in
  transaction_hash_repr <- serialize transaction_hash ;;
  transaction_id <-
    (fun st =>
       let id := transactions_transaction_id_seq st + 1 in
       Ret id (with_transactions st
                 (transactions st
                  ++ [Transactions.mk id transaction_hash_repr
                        (Message.version transaction)
                        (Message.locktime transaction)])
                 id)) ;;
  for_each (fun i input => insert_input input transaction_id i)
    0 (Message.inputs transaction) ;;
  for_each (fun i output => insert_output output transaction_id i)
    0 (Message.outputs transaction) ;;
  ret transaction_id.

(** [store(transaction, handle_store)] *)
Definition store_transaction (transaction : Message.transaction opcode)
    : M unit :=
  insert_transaction transaction ;;
  handle_store false.

(** [SELECT 1 FROM blocks WHERE block_hash=?] *)
Definition select_block_hash (block_hash_repr : string) (st : state)
    : list N :=
  map (fun _ => 1)
    (filter (fun r => String.eqb (block_hash r) block_hash_repr) (blocks st)).

(** [INSERT INTO blocks ... RETURNING block_id] *)
Definition insert_block_row (block : Message.block opcode)
    (block_hash_repr prev_block_repr merkle_repr : string) : M N :=
  fun st =>
    let id := blocks_block_id_seq st + 1 in
    Ret id
      (with_blocks st
         (blocks st
          ++ [mk_block_row id block_hash_repr (Message.block_version block)
                prev_block_repr merkle_repr (Message.timestamp block)
                (N.shiftr (Message.bits block) (8 * 3))
                (N.land (Message.bits block) 0x00ffffff)
                (Message.block_nonce block)
                None None None])
         id).

(** [store(block, handle_store)] *)
Definition store_block (block : Message.block opcode) : M unit :=
  let block_hash := hash_block_header block in
  block_hash_repr <- serialize block_hash ;;
  prev_block_repr <- serialize (Message.prev_block block) ;;
  merkle_repr <- serialize (Message.merkle_root block) ;;
  res <- row (select_block_hash block_hash_repr) ;;
  match res with
  | Some _ => ret tt                              (* [return] *)
  | None =>
      block_id <-
        insert_block_row block block_hash_repr prev_block_repr merkle_repr ;;
      for_each
        (fun i transaction =>
           transaction_id <- insert_transaction transaction ;;
           exec (fun st =>
                   with_transactions_parents st
                     (transactions_parents st
                      ++ [TransactionsParents.mk transaction_id block_id i])))
        0 (Message.transactions block) ;;
      handle_store false
  end.

End Store.

(* ================================================================== *)
(** ** [postgresql_storage::organize_blockchain]                      *)
(* ================================================================== *)

(** [size_t] arithmetic wraps around, at [2^64] with a [size_t] of 64
    bits. *)
Definition SIZE_MAX_succ : N := 2 ^ 64.
Definition size_t_add (a b : N) : N := (a + b) mod SIZE_MAX_succ.

(** Modelled from the spec: [BITCOIN_ASSERT] comes from
    [bitcoin/util/assert.hpp]; a failed assertion is fatal and aborts
    the invocation before anything further is written. *)
Definition BITCOIN_ASSERT (c : bool) : M unit :=
  if c then ret tt else throw assertion_failure.

(** [ORDER BY block_id ASC], on the two columns selected. *)
Fixpoint insert_asc (x : N * string) (l : list (N * string))
    : list (N * string) :=
  match l with
  | [] => [x]
  | y :: l' => if fst x <=? fst y then x :: l else y :: insert_asc x l'
  end.

Definition order_by_block_id (l : list (N * string)) : list (N * string) :=
  fold_right insert_asc [] l.

(** [SELECT block_id, prev_block_hash FROM blocks WHERE depth IS NULL
     ORDER BY block_id ASC] *)
Definition select_pending (st : state) : list (N * string) :=
  order_by_block_id
    (map (fun r => (block_id r, prev_block_hash r))
       (filter (fun r => Sql.is_null (depth r)) (blocks st))).

(** [SELECT block_id, depth, span_left, span_right FROM blocks
     WHERE block_hash=? AND depth IS NOT NULL] *)
Definition select_parent (prev_block_hash : string) (st : state)
    : list block_row :=
  filter (fun r => String.eqb (block_hash r) prev_block_hash
                   && Sql.is_not_null (depth r))
    (blocks st).

(** The condition of the query that looks for children:
    [span_left >= ? AND span_right <= ? AND depth > ?]. *)
Definition within_and_deeper (parent_span_left parent_span_right
    parent_depth : N) (r : block_row) : bool :=
  Sql.holds
    (Sql.and
       (Sql.and (Sql.ge (span_left r) parent_span_left)
                (Sql.le (span_right r) parent_span_right))
       (Sql.gt (depth r) parent_depth)).

(** [SELECT 1 FROM blocks WHERE ... LIMIT 1] *)
Definition select_children (parent_span_left parent_span_right
    parent_depth : N) (st : state) : list N :=
  firstn 1
    (map (fun _ => 1)
       (filter (within_and_deeper parent_span_left parent_span_right
                  parent_depth)
          (blocks st))).

(** [UPDATE blocks SET span_left=span_left+1 WHERE span_left >= ?] *)
Definition shift_span_left (chain_id : N) (r : block_row) : block_row :=
  if Sql.holds (Sql.ge (span_left r) chain_id)
  then mk_block_row (block_id r) (block_hash r) (version r)
         (prev_block_hash r) (merkle r) (when_created r) (bits_head r)
         (bits_body r) (nonce r) (depth r)
         (Sql.succ (span_left r)) (span_right r)
  else r.

(** [UPDATE blocks SET span_right=span_right+1 WHERE span_right >= ?] *)
Definition shift_span_right (chain_id : N) (r : block_row) : block_row :=
  if Sql.holds (Sql.ge (span_right r) chain_id)
  then mk_block_row (block_id r) (block_hash r) (version r)
         (prev_block_hash r) (merkle r) (when_created r) (bits_head r)
         (bits_body r) (nonce r) (depth r)
         (span_left r) (Sql.succ (span_right r))
  else r.

(** [UPDATE blocks SET depth=?, span_left=?, span_right=?
     WHERE block_id=?] *)
Definition set_linked (d chain_left chain_right id : N) (r : block_row)
    : block_row :=
  if block_id r =? id
  then mk_block_row (block_id r) (block_hash r) (version r)
         (prev_block_hash r) (merkle r) (when_created r) (bits_head r)
         (bits_body r) (nonce r)
         (Some d) (Some chain_left) (Some chain_right)
  else r.

(** An [UPDATE] of [blocks] visits every row. *)
Definition update_blocks (f : block_row -> block_row) : M unit :=
  exec (fun st => with_blocks st (map f (blocks st)) (blocks_block_id_seq st)).

(** The body of the [while (res.next())] loop, for one row of the
    result. *)
Definition organize_row (block_id : N) (prev_block_hash : string) : M unit :=
  parent_result <- row (select_parent prev_block_hash) ;;
  match parent_result with
  | None => ret tt                                    (* [continue] *)
  | Some parent =>
      parent_depth <- get_size_t (depth parent) ;;
      parent_span_left <- get_size_t (span_left parent) ;;
      parent_span_right <- get_size_t (span_right parent) ;;
      (* Does this parent have children already? *)
      has_children_result <-
        row (select_children parent_span_left parent_span_right
               parent_depth) ;;
      let has_children :=
        match has_children_result with Some _ => true | None => false end in
      let depth := size_t_add parent_depth 1 in
      if has_children then
        (* Fork in the blockchain!  Both updates run under one
           [cppdb::transaction] guard. *)
        let chain_id := parent_span_right in
        update_blocks (shift_span_left chain_id) ;;
        update_blocks (shift_span_right chain_id)
      else
        BITCOIN_ASSERT (parent_span_left =? parent_span_right) ;;
        let chain_id := parent_span_left in
        update_blocks (set_linked depth chain_id chain_id block_id)
  end.

(** The loop over the rows of the first query.  The result is what the
    query returned when it was run; rows changed by the loop are not
    selected again. *)
Fixpoint organize_loop (res : list (N * string)) : M unit :=
  match res with
  | [] => ret tt
  | (block_id, prev_block_hash) :: res' =>
      organize_row block_id prev_block_hash ;;
      organize_loop res'
  end.

Definition organize_blockchain : M unit :=
  res <- query select_pending ;;
  organize_loop res.

(** [n] invocations in a row; an exception ends the sequence. *)
Fixpoint organize_times (n : nat) : M unit :=
  match n with
  | O => ret tt
  | S n' => organize_blockchain ;; organize_times n'
  end.

(* ------------------------------------------------------------------ *)
(** *** The scenarios of the specification, as concrete stores        *)
(* ------------------------------------------------------------------ *)

Definition empty_state : state :=
  mk_state [] 0 [] 0 [] 0 [] 0 [] 0 [] [].

(** A row of [blocks] with only the columns the organizer looks at. *)
Definition header_row (id : N) (hash prev : string)
    (d l r : Sql.value) : block_row :=
  mk_block_row id hash 1 prev "" 0 0 0 0 d l r.

Definition store_of (rows : list block_row) : state :=
  with_blocks empty_state rows (N.of_nat (List.length rows)).

Definition root_R := header_row 1 "R" "" (Some 0) (Some 0) (Some 0).
Definition pending_B1 := header_row 2 "B1" "R" None None None.
Definition pending_B2 := header_row 3 "B2" "R" None None None.
Definition linked_B1 := header_row 2 "B1" "R" (Some 1) (Some 0) (Some 0).

Definition scenario1 : state := store_of [root_R; pending_B1].
Definition scenario2 : state := store_of [root_R; linked_B1; pending_B2].

(** The fork check of the organizer as one function of the parent's
    columns: [!has_children_result.empty()]. *)
Definition has_children (parent_span_left parent_span_right parent_depth : N)
    (st : state) : bool :=
  match single_row (select_children parent_span_left parent_span_right
                      parent_depth st) with
  | Some (Some _) => true
  | _ => false
  end.

(** The two updates of the fork branch, one after the other. *)
Definition shift_spans (chain_id : N) (r : block_row) : block_row :=
  shift_span_right chain_id (shift_span_left chain_id r).

Arguments insert_operation {opcode}.
Arguments insert_script {opcode}.
Arguments insert_input {opcode}.
Arguments insert_output {opcode}.
Arguments insert_transaction {opcode}.
Arguments store_transaction {opcode}.
Arguments insert_block_row {opcode}.
Arguments store_block {opcode}.

(* ================================================================== *)
(** ** The forest a table describes, and the states the store goes
       through                                                        *)
(* ================================================================== *)

(** A record is linked once its [depth] is set, pending before. *)
Definition linked (r : block_row) : Prop := depth r <> None.
Definition pending (r : block_row) : Prop := depth r = None.

(** [a] is the parent of [b]: both are linked rows of the table and
    [b]'s [prev_block_hash] is [a]'s [block_hash]. *)
Definition parent_of (rows : list block_row) (a b : block_row) : Prop :=
  In a rows /\ In b rows /\ linked a /\ linked b
  /\ block_hash a = prev_block_hash b.

(** Ancestors: parents of parents. *)
Inductive ancestor (rows : list block_row) : block_row -> block_row -> Prop :=
| ancestor_parent a b : parent_of rows a b -> ancestor rows a b
| ancestor_step a b c :
    ancestor rows a b -> parent_of rows b c -> ancestor rows a c.

(** The interval of [b] lies within the interval of [a]. *)
Definition contains (a b : block_row) : Prop :=
  exists al ar bl br,
    span_left a = Some al /\ span_right a = Some ar /\
    span_left b = Some bl /\ span_right b = Some br /\
    al <= bl /\ bl <= br /\ br <= ar.

(** A store with a single linked root (the row with [block_id = root],
    at depth 0 on a chain of its own) and any number of pending blocks.
    [block_id] is the key of the table and comes from its sequence;
    [block_hash] is unique. *)
Definition initial (root : N) (st : state) : Prop :=
  NoDup (map block_hash (blocks st)) /\
  NoDup (map block_id (blocks st)) /\
  (forall r, In r (blocks st) -> block_id r <= blocks_block_id_seq st) /\
  (exists r c, In r (blocks st) /\ block_id r = root /\ depth r = Some 0
               /\ span_left r = Some c /\ span_right r = Some c) /\
  (forall r, In r (blocks st) -> block_id r <> root ->
             depth r = None /\ span_left r = None /\ span_right r = None).

(** The states the store goes through from there: the organizer runs
    (the state after each row of its loop is included, which is also
    where an aborted invocation would leave the store), and new blocks
    are stored, whatever the hash functions are. *)
Inductive reachable (root : N) : state -> Prop :=
| reach_initial st : initial root st -> reachable root st
| reach_organize st k :
    reachable root st ->
    reachable root (final (organize_loop (firstn k (select_pending st)) st))
| reach_store (opcode : Type) (opcode_to_string : opcode -> string)
    (hash_transaction : Message.transaction opcode -> hash_digest)
    (hash_block_header : Message.block opcode -> hash_digest)
    (block : Message.block opcode) st :
    reachable root st ->
    reachable root
      (final (store_block opcode_to_string hash_transaction
                hash_block_header block st)).

(** All linked rows sit on the one chain id [n]; pending rows have no
    interval. *)
Definition single_chain (n : N) (rows : list block_row) : Prop :=
  forall r, In r rows ->
    match depth r with
    | Some _ => span_left r = Some n /\ span_right r = Some n
    | None => span_left r = None /\ span_right r = None
    end.

Definition linked_count (rows : list block_row) : nat :=
  List.length (filter (fun r => Sql.is_not_null (depth r)) rows).

(** What the organizer and [store] keep true of the table. *)
Record organized (root : N) (st : state) : Prop := mk_organized {
  org_chain : exists n, single_chain n (blocks st);
  org_hashes : NoDup (map block_hash (blocks st));
  org_ids : NoDup (map block_id (blocks st));
  org_seq : forall r, In r (blocks st) -> block_id r <= blocks_block_id_seq st;
  org_root : exists r, In r (blocks st) /\ block_id r = root /\ linked r;
  org_bound : forall r d, In r (blocks st) -> depth r = Some d ->
                          d < N.of_nat (linked_count (blocks st));
  org_parent : forall r d, In r (blocks st) -> depth r = Some d ->
      block_id r <> root ->
      exists p d', In p (blocks st) /\ block_hash p = prev_block_hash r
                   /\ depth p = Some d' /\ d = size_t_add d' 1
}.

(** The rows still to be visited by the loop are pending rows of the
    table, each once. *)
Definition snapshot_ok (rows : list block_row) (res : list (N * string))
    : Prop :=
  NoDup (map fst res) /\
  forall id prev, In (id, prev) res ->
    exists r, In r rows /\ block_id r = id /\ prev_block_hash r = prev
              /\ depth r = None.

(** No pending record has a linked parent: nothing for the organizer
    to do. *)
Definition quiescent (st : state) : Prop :=
  forall r p, In r (blocks st) -> In p (blocks st) ->
    pending r -> linked p -> block_hash p <> prev_block_hash r.

(** The fork scenario with any hashes, after [n] shifts: the root and
    its linked child on chain id [n], and a pending second child. *)
Definition fork_store (hR h1 h2 : string) (n : N) : state :=
  store_of [header_row 1 hR "" (Some 0) (Some n) (Some n);
            header_row 2 h1 hR (Some 1) (Some n) (Some n);
            header_row 3 h2 hR None None None].

(** A root with a pending child and grandchild that arrived in the
    opposite order. *)
Definition reversed_chain : state :=
  store_of [root_R;
            header_row 2 "X" "B" None None None;
            header_row 3 "B" "R" None None None].

(* ================================================================== *)
(** ** Auxiliary notions used by the statements                       *)
(* ================================================================== *)

(** A relation between the state before a call and the state after it
    that holds however the call ends. *)
Definition keeps {A} (R : state -> state -> Prop) (c : M A) : Prop :=
  forall st, R st (final (c st)).

(** The [blocks] table, its sequence and the handler calls are the same
    in both states. *)
Definition same_blocks (st st' : state) : Prop :=
  blocks st' = blocks st
  /\ blocks_block_id_seq st' = blocks_block_id_seq st
  /\ handled st' = handled st.

(** What [store(block)] does to the [blocks] table and the handler,
    however it ends: nothing, or one new pending row at the end, with
    the handler called at most once and only after that row. *)
Definition stored_row (st st' : state) (repr : string) : Prop :=
  exists new_row,
    blocks st' = blocks st ++ [new_row]
    /\ block_id new_row = blocks_block_id_seq st + 1
    /\ blocks_block_id_seq st' = blocks_block_id_seq st + 1
    /\ block_hash new_row = repr
    /\ depth new_row = None /\ span_left new_row = None
    /\ span_right new_row = None
    /\ (forall r, In r (blocks st) -> block_hash r <> repr).

Definition duplicate_block : Message.block unit :=
  Message.mk_block unit 1 [x00] [x00] 0 0 0 [].

(** The interval after the two updates: each bound moves up by one
    exactly when it is set and at or beyond the slot. *)
Definition shifted (c : N) (v : Sql.value) : Sql.value :=
  match v with
  | Some x => if c <=? x then Some (x + 1) else Some x
  | None => None
  end.

(** A root, its child and its grandchild, stored in that order. *)
Definition pending_B1a := header_row 3 "B1a" "B1" None None None.

Definition linked_B1a := header_row 3 "B1a" "B1" (Some 2) (Some 0) (Some 0).

Definition chain3 : state := store_of [root_R; pending_B1; pending_B1a].

Definition chain3_linked : state := store_of [root_R; linked_B1; linked_B1a].

(** The same chain with a block whose parent never arrived, before and
    after one invocation of the organizer. *)
Definition pending_stray := header_row 4 "S" "nowhere" None None None.
Definition chain3_stray : state :=
  store_of [root_R; pending_B1; pending_B1a; pending_stray].
Definition chain3_stray_linked : state :=
  store_of [root_R; linked_B1; linked_B1a; pending_stray].

(** Text made of hexadecimal digits and white space only: fields
    without sign or [0x] prefix, on which [Stream.extract_int] is what
    [operator>>] does. *)
Definition hex_text (s : string) : bool :=
  forallb (fun c => Hex.is_space c
                    || match Hex.value c with Some _ => true | None => false end)
    (list_ascii_of_string s).

(** The two digits [serialize_bytes] writes for a byte. *)
Definition hex2 (b : byte) : list ascii :=
  Hex.setw_fill 2 "0"%char (Hex.show (Byte.to_N b)).

(** Two digits that read back as the byte's value. *)
Definition hex2_reads_back (b : byte) : bool :=
  match hex2 b with
  | [hi; lo] =>
      match Hex.value hi, Hex.value lo with
      | Some vh, Some vl => 16 * (16 * 0 + vh) + vl =? Byte.to_N b
      | _, _ => false
      end
  | _ => false
  end.

(** Rows appended to the tables of the insertion path, and the number
    of values taken from [script_sequence]. *)
Record batch := mk_batch {
  b_transactions : list Transactions.row;
  b_inputs : list Inputs.row;
  b_outputs : list Outputs.row;
  b_operations : list Operations.row;
  b_parents : list TransactionsParents.row;
  b_scripts : nat
}.

Definition no_rows : batch := mk_batch [] [] [] [] [] 0.

Definition batch_app (a b : batch) : batch :=
  mk_batch (b_transactions a ++ b_transactions b)
    (b_inputs a ++ b_inputs b) (b_outputs a ++ b_outputs b)
    (b_operations a ++ b_operations b) (b_parents a ++ b_parents b)
    (b_scripts a + b_scripts b).

(** The state with the rows of a batch appended, in order, each table's
    sequence advanced by one per row (and [script_sequence] by one per
    script); [blocks] and the handler calls are as they were. *)
Definition add_batch (st : state) (b : batch) : state :=
  mk_state (blocks st) (blocks_block_id_seq st)
    (transactions st ++ b_transactions b)
    (transactions_transaction_id_seq st
     + N.of_nat (List.length (b_transactions b)))
    (inputs st ++ b_inputs b)
    (inputs_input_id_seq st + N.of_nat (List.length (b_inputs b)))
    (outputs st ++ b_outputs b)
    (outputs_output_id_seq st + N.of_nat (List.length (b_outputs b)))
    (operations st ++ b_operations b)
    (script_sequence st + N.of_nat (b_scripts b))
    (transactions_parents st ++ b_parents b)
    (handled st).

(** The text of a hash that has bytes. *)
Definition hex (h : hash_digest) : string :=
  match serialize_bytes h with Some s => s | None => EmptyString end.

(** The row [insert(operation, script_id)] writes: the [data] column is
    [NULL] for an operation without data. *)
Definition operation_row {opcode : Type} (opcode_to_string : opcode -> string)
    (script_id : N) (operation : Message.operation opcode) : Operations.row :=
  Operations.mk (opcode_to_string (Message.code operation)) script_id
    (match Message.data operation with
     | [] => None
     | data => serialize_bytes data
     end).

(** The rows [insert(transaction)] writes for the inputs of a
    transaction [tid], from index [i] on, when [input_id] and [script_id]
    are the last values handed out: each input takes the next script id
    and the next input id. *)
Fixpoint input_rows {opcode : Type} (tid i input_id script_id : N)
    (ins : list (Message.transaction_input opcode)) : list Inputs.row :=
  match ins with
  | [] => []
  | input :: ins' =>
      Inputs.mk (input_id + 1) tid i (script_id + 1) None
        (hex (Message.hash input)) (Message.sequence input)
      :: input_rows tid (i + 1) (input_id + 1) (script_id + 1) ins'
  end.

Fixpoint input_operations {opcode : Type} (opcode_to_string : opcode -> string)
    (script_id : N) (ins : list (Message.transaction_input opcode))
    : list Operations.row :=
  match ins with
  | [] => []
  | input :: ins' =>
      map (operation_row opcode_to_string (script_id + 1))
        (Message.input_script input)
      ++ input_operations opcode_to_string (script_id + 1) ins'
  end.

(** The same for the outputs. *)
Fixpoint output_rows {opcode : Type} (tid i output_id script_id : N)
    (outs : list (Message.transaction_output opcode)) : list Outputs.row :=
  match outs with
  | [] => []
  | output :: outs' =>
      Outputs.mk (output_id + 1) tid i (script_id + 1)
        (Message.value output) "other" None
      :: output_rows tid (i + 1) (output_id + 1) (script_id + 1) outs'
  end.

Fixpoint output_operations {opcode : Type}
    (opcode_to_string : opcode -> string) (script_id : N)
    (outs : list (Message.transaction_output opcode)) : list Operations.row :=
  match outs with
  | [] => []
  | output :: outs' =>
      map (operation_row opcode_to_string (script_id + 1))
        (Message.output_script output)
      ++ output_operations opcode_to_string (script_id + 1) outs'
  end.

(** Everything [insert(transaction)] writes, when [tseq], [iseq], [oseq]
    and [sseq] are the last values of the four sequences: the
    transaction's row, then its inputs with their scripts, then its
    outputs with theirs. *)
Definition transaction_batch {opcode : Type}
    (opcode_to_string : opcode -> string)
    (hash_transaction : Message.transaction opcode -> hash_digest)
    (tseq iseq oseq sseq : N) (tx : Message.transaction opcode) : batch :=
  let n_in := List.length (Message.inputs tx) in
  mk_batch
    [Transactions.mk (tseq + 1) (hex (hash_transaction tx))
       (Message.version tx) (Message.locktime tx)]
    (input_rows (tseq + 1) 0 iseq sseq (Message.inputs tx))
    (output_rows (tseq + 1) 0 oseq (sseq + N.of_nat n_in)
       (Message.outputs tx))
    (input_operations opcode_to_string sseq (Message.inputs tx)
     ++ output_operations opcode_to_string (sseq + N.of_nat n_in)
          (Message.outputs tx))
    []
    (n_in + List.length (Message.outputs tx)).

(** Everything the loop of [store(block)] writes for the transactions
    of block [block_id] from index [i] on: each transaction, followed by
    its row of [transactions_parents]. *)
Fixpoint block_batch {opcode : Type} (opcode_to_string : opcode -> string)
    (hash_transaction : Message.transaction opcode -> hash_digest)
    (block_id i tseq iseq oseq sseq : N)
    (txs : list (Message.transaction opcode)) : batch :=
  match txs with
  | [] => no_rows
  | tx :: txs' =>
      batch_app
        (batch_app
           (transaction_batch opcode_to_string hash_transaction
              tseq iseq oseq sseq tx)
           (mk_batch [] [] [] []
              [TransactionsParents.mk (tseq + 1) block_id i] 0))
        (block_batch opcode_to_string hash_transaction block_id (i + 1)
           (tseq + 1)
           (iseq + N.of_nat (List.length (Message.inputs tx)))
           (oseq + N.of_nat (List.length (Message.outputs tx)))
           (sseq + N.of_nat (List.length (Message.inputs tx)
                             + List.length (Message.outputs tx)))
           txs')
  end.

(** A transaction with one input (a script of two operations, the
    first without data) and one output, and a block that holds it. *)
Definition sample_transaction : Message.transaction unit :=
  Message.mk_transaction unit 1 0
    [Message.mk_input unit [x01]
       [Message.mk_operation unit tt []; Message.mk_operation unit tt [xff]]
       0]
    [Message.mk_output unit 50 [Message.mk_operation unit tt [x0a]]].

Definition sample_block : Message.block unit :=
  Message.mk_block unit 1 [x00] [x00] 0 0x1d00ffff 7 [sample_transaction].

(** The columns of a [blocks] row that [store] fills in. *)
Definition header (r : block_row)
    : N * string * N * string * string * N * N * N * N :=
  (block_id r, block_hash r, version r, prev_block_hash r, merkle r,
   when_created r, bits_head r, bits_body r, nonce r).

(** The keys of [blocks] are in order: [block_hash] is unique,
    [block_id] is unique and was handed out by the sequence. *)
Definition keyed (st : state) : Prop :=
  NoDup (map block_hash (blocks st))
  /\ NoDup (map block_id (blocks st))
  /\ forall r, In r (blocks st) -> block_id r <= blocks_block_id_seq st.

(** Nothing but [depth] and the interval of rows of [blocks] differs
    between the two states. *)
Definition same_headers (st st' : state) : Prop :=
  map header (blocks st') = map header (blocks st)
  /\ blocks_block_id_seq st' = blocks_block_id_seq st
  /\ transactions st' = transactions st
  /\ transactions_transaction_id_seq st' = transactions_transaction_id_seq st
  /\ inputs st' = inputs st
  /\ inputs_input_id_seq st' = inputs_input_id_seq st
  /\ outputs st' = outputs st
  /\ outputs_output_id_seq st' = outputs_output_id_seq st
  /\ operations st' = operations st
  /\ script_sequence st' = script_sequence st
  /\ transactions_parents st' = transactions_parents st
  /\ handled st' = handled st.

(** The interval of [a] ends before the interval of [b] begins. *)
Definition before (a b : block_row) : Prop :=
  exists al ar bl br,
    span_left a = Some al /\ span_right a = Some ar /\
    span_left b = Some bl /\ span_right b = Some br /\
    al <= ar /\ ar < bl /\ bl <= br.

(** A chain of blocks given by their [block_id]s and hashes, each
    naming the hash of the one before as its parent: all pending, and
    all linked on chain id [c] from depth [d] on. *)
Fixpoint pending_chain (prev : string) (l : list (N * string))
    : list block_row :=
  match l with
  | [] => []
  | (id, h) :: l' =>
      header_row id h prev None None None :: pending_chain h l'
  end.

Fixpoint linked_chain (prev : string) (d c : N) (l : list (N * string))
    : list block_row :=
  match l with
  | [] => []
  | (id, h) :: l' =>
      header_row id h prev (Some d) (Some c) (Some c)
      :: linked_chain h (d + 1) c l'
  end.

(** The rows of the organizer's first query for such a chain. *)
Fixpoint chain_entries (prev : string) (l : list (N * string))
    : list (N * string) :=
  match l with
  | [] => []
  | (id, h) :: l' => (id, prev) :: chain_entries h l'
  end.

(** Every linked row of [rows] is in [rows'] with the same columns
    other than the interval. *)
Definition linked_kept (rows rows' : list block_row) : Prop :=
  forall r d, In r rows -> depth r = Some d ->
    exists r', In r' rows' /\ header r' = header r /\ depth r' = Some d.

(** The orphan [b] is in the table, unlinked, and no row has the hash
    it names as its parent. *)
Definition orphaned (b : block_row) (st : state) : Prop :=
  NoDup (map block_id (blocks st))
  /\ In b (blocks st)
  /\ forall r, In r (blocks st) -> block_hash r <> prev_block_hash b.

Definition orphan_O := header_row 2 "O" "nowhere" None None None.

Definition wide_root := header_row 1 "R" "" (Some 0) (Some 0) (Some 3).
Definition left_branch := header_row 2 "L" "R" (Some 1) (Some 1) (Some 1).
Definition right_branch := header_row 3 "Q" "R" (Some 1) (Some 2) (Some 3).

(** A linked row on a chain of its own next to a branch that spans two
    chain ids, with a pending child under each, and a pending child of
    the root stored first. *)
Definition uneven : state :=
  store_of [header_row 1 "R" "" (Some 0) (Some 0) (Some 0);
            header_row 2 "W" "R" (Some 1) (Some 2) (Some 3);
            header_row 3 "C" "R" None None None;
            header_row 4 "D" "W" None None None;
            header_row 5 "E" "C" None None None].

(** Every hash that [insert(transaction)] serializes has bytes (a
    [hash_digest] is an array of 32). *)
Definition hashes_present {opcode : Type}
    (hash_transaction : Message.transaction opcode -> hash_digest)
    (tx : Message.transaction opcode) : Prop :=
  hash_transaction tx <> []
  /\ Forall (fun i => Message.hash i <> []) (Message.inputs tx).

(* ================================================================== *)
(** * Properties                                                      *)
(* ================================================================== *)

(** ** Worked examples *)

Example serialize_3 :
  serialize_bytes [x0a; xff; x00] = Some "0a ff 00"%string.
Proof. reflexivity. Qed.

Example deserialize_3 :
  deserialize_bytes 77 "0a ff 00" = [x4d; x0a; xff].
Proof. reflexivity. Qed.

Example scenario1_links_B1 :
  organize_blockchain scenario1 = Ret tt (store_of [root_R; linked_B1]).
Proof. reflexivity. Qed.

Example scenario2_twice :
  organize_times 2 scenario2
  = Ret tt (store_of [header_row 1 "R" "" (Some 0) (Some 2) (Some 2);
                      header_row 2 "B1" "R" (Some 1) (Some 2) (Some 2);
                      pending_B2]).
Proof. reflexivity. Qed.

Example scenario3_orphan_stays :
  organize_times 3 (store_of [root_R; header_row 2 "O" "nowhere" None None None])
  = Ret tt (store_of [root_R; header_row 2 "O" "nowhere" None None None]).
Proof. reflexivity. Qed.

Example reversed_chain_needs_two :
  organize_times 2 reversed_chain
  = Ret tt (store_of [root_R;
                      header_row 2 "X" "B" (Some 2) (Some 0) (Some 0);
                      header_row 3 "B" "R" (Some 1) (Some 0) (Some 0)]).
Proof. reflexivity. Qed.

(** ** The monad, and what the insertion path leaves alone *)

Lemma bind_ret {A B} (c : M A) (k : A -> M B) st a st' :
  c st = Ret a st' -> bind c k st = k a st'.
Proof. intros H. unfold bind. now rewrite H. Qed.

Lemma bind_throw {A B} (c : M A) (k : A -> M B) st e st' :
  c st = Throw e st' -> bind c k st = Throw e st'.
Proof. intros H. unfold bind. now rewrite H. Qed.

Lemma bind_eq {A B} (c : M A) (k : A -> M B) st :
  bind c k st
  = match c st with
    | Ret a st' => k a st'
    | Throw e st' => Throw e st'
    end.
Proof. reflexivity. Qed.

Lemma row_eq {A} (q : state -> list A) st :
  row q st
  = match single_row (q st) with
    | Some o => Ret o st
    | None => Throw multiple_rows_query st
    end.
Proof. unfold row, lift. now destruct (single_row (q st)). Qed.

Lemma single_row_map {A B} (g : A -> B) l :
  single_row (map g l) = option_map (option_map g) (single_row l).
Proof. destruct l as [|a [|b l]]; reflexivity. Qed.

(** A query that selects by [block_hash] on a table where it is unique
    selects at most one row. *)
Lemma single_row_unique_hash rows h (f : block_row -> bool) :
  NoDup (map block_hash rows) ->
  (forall r, f r = true -> block_hash r = h) ->
  exists o, single_row (filter f rows) = Some o.
Proof.
  intros Hnd Hf. induction rows as [|r rows IH]; [simpl; eauto|].
  inversion Hnd as [|? ? Hnotin Hnd']; subst.
  cbn [filter]. destruct (f r) eqn:Hr; [|auto].
  assert (Hnil : filter f rows = []).
  { destruct (filter f rows) as [|x l] eqn:E; [reflexivity|].
    exfalso. apply Hnotin.
    assert (Hx : In x (filter f rows)) by (rewrite E; now left).
    apply filter_In in Hx. destruct Hx as (Hx & Hfx).
    rewrite (Hf r Hr), <- (Hf x Hfx). now apply in_map. }
  rewrite Hnil. simpl. eauto.
Qed.

Lemma single_row_some_In {A} (l : list A) a :
  single_row l = Some (Some a) -> In a l.
Proof.
  destruct l as [|b [|c l]]; try discriminate.
  intros H. injection H as ->. now left.
Qed.

Lemma single_row_none_nil {A} (l : list A) :
  single_row l = Some None -> l = [].
Proof. now destruct l as [|b [|c l]]. Qed.

Lemma serialize_eq data st :
  serialize data st
  = match serialize_bytes data with
    | Some s => Ret s st
    | None => Throw length_error st
    end.
Proof. unfold serialize, lift. now destruct (serialize_bytes data). Qed.

Section Keeps.
Variable R : state -> state -> Prop.
Hypothesis R_refl : forall st, R st st.
Hypothesis R_trans : forall a b c, R a b -> R b c -> R a c.

Lemma keeps_ret {A} (a : A) : keeps R (ret a).
Proof. intros st. apply R_refl. Qed.

Lemma keeps_throw {A} e : keeps R (@throw A e).
Proof. intros st. apply R_refl. Qed.

Lemma keeps_lift {A} e (o : option A) : keeps R (lift e o).
Proof. destruct o; [apply keeps_ret | apply keeps_throw]. Qed.

Lemma keeps_bind {A B} (c : M A) (k : A -> M B) :
  keeps R c -> (forall a, keeps R (k a)) -> keeps R (bind c k).
Proof.
  intros Hc Hk st. unfold bind. specialize (Hc st).
  destruct (c st) as [a st'|e st']; simpl in *.
  - eapply R_trans; [exact Hc | apply Hk].
  - exact Hc.
Qed.

Lemma keeps_for_each {A} (f : N -> A -> M unit) l :
  (forall i a, keeps R (f i a)) -> forall i, keeps R (for_each f i l).
Proof.
  intros Hf. induction l as [|a l IH]; intros i; simpl.
  - apply keeps_ret.
  - apply keeps_bind; [apply Hf | intros _; apply IH].
Qed.
End Keeps.

Lemma same_blocks_refl st : same_blocks st st.
Proof. now repeat split. Qed.

Lemma same_blocks_trans a b c :
  same_blocks a b -> same_blocks b c -> same_blocks a c.
Proof.
  intros (H1 & H2 & H3) (H4 & H5 & H6).
  repeat split; congruence.
Qed.

Lemma same_blocks_bind {A B} (c : M A) (k : A -> M B) :
  keeps same_blocks c -> (forall a, keeps same_blocks (k a)) ->
  keeps same_blocks (bind c k).
Proof. apply keeps_bind. exact same_blocks_trans. Qed.

Lemma same_blocks_for_each {A} (f : N -> A -> M unit) l i :
  (forall i a, keeps same_blocks (f i a)) ->
  keeps same_blocks (for_each f i l).
Proof.
  intros H. apply keeps_for_each.
  - exact same_blocks_refl.
  - exact same_blocks_trans.
  - exact H.
Qed.

Lemma same_blocks_serialize data : keeps same_blocks (serialize data).
Proof. apply keeps_lift. exact same_blocks_refl. Qed.

Lemma same_blocks_ret {A} (a : A) : keeps same_blocks (ret a).
Proof. apply keeps_ret. exact same_blocks_refl. Qed.

(** Chains of binds, loops and writes to the other tables. *)
Create HintDb storage.

Ltac same_blocks_tac :=
  repeat first
    [ solve [auto with storage nocore]
    | apply same_blocks_ret
    | apply same_blocks_serialize
    | apply same_blocks_bind; [| intros ?]
    | apply same_blocks_for_each; intros ? ?
    | progress (intros ?; repeat split; reflexivity) ].

Section StoreFacts.
Variable opcode : Type.
Variable opcode_to_string : opcode -> string.
Variable hash_transaction : Message.transaction opcode -> hash_digest.
Variable hash_block_header : Message.block opcode -> hash_digest.

Lemma insert_operation_same_blocks op script_id :
  keeps same_blocks (insert_operation opcode_to_string op script_id).
Proof.
  unfold insert_operation.
  destruct (List.length (Message.data op) =? 0)%nat; same_blocks_tac.
Qed.
#[local] Hint Resolve insert_operation_same_blocks : storage.

Lemma insert_script_same_blocks ops :
  keeps same_blocks (insert_script opcode_to_string ops).
Proof. unfold insert_script. same_blocks_tac. Qed.
#[local] Hint Resolve insert_script_same_blocks : storage.

Lemma insert_input_same_blocks input tid i :
  keeps same_blocks (insert_input opcode_to_string input tid i).
Proof. unfold insert_input. same_blocks_tac. Qed.
#[local] Hint Resolve insert_input_same_blocks : storage.

Lemma insert_output_same_blocks output tid i :
  keeps same_blocks (insert_output opcode_to_string output tid i).
Proof. unfold insert_output. same_blocks_tac. Qed.
#[local] Hint Resolve insert_output_same_blocks : storage.

Lemma insert_transaction_same_blocks tx :
  keeps same_blocks (insert_transaction opcode_to_string hash_transaction tx).
Proof. unfold insert_transaction. same_blocks_tac. Qed.
#[local] Hint Resolve insert_transaction_same_blocks : storage.

Lemma select_block_hash_empty repr st :
  single_row (select_block_hash repr st) = Some None ->
  forall r, In r (blocks st) -> block_hash r <> repr.
Proof.
  unfold select_block_hash. intros H r Hin Heq.
  apply single_row_none_nil in H.
  assert (Hf : In r (filter (fun r => String.eqb (block_hash r) repr)
                       (blocks st))).
  { apply filter_In. split; [exact Hin|]. now apply String.eqb_eq. }
  destruct (filter _ (blocks st)); [contradiction | discriminate].
Qed.

Lemma select_block_hash_found repr st r :
  NoDup (map block_hash (blocks st)) ->
  In r (blocks st) -> block_hash r = repr ->
  exists x, single_row (select_block_hash repr st) = Some (Some x).
Proof.
  unfold select_block_hash. intros Hnd Hin Heq.
  assert (Hf : In r (filter (fun r => String.eqb (block_hash r) repr)
                       (blocks st))).
  { apply filter_In. split; [exact Hin|]. now apply String.eqb_eq. }
  destruct (single_row_unique_hash (blocks st) repr
              (fun r => String.eqb (block_hash r) repr) Hnd) as (o & Ho).
  { intros x Hx. now apply String.eqb_eq. }
  rewrite single_row_map, Ho.
  destruct o as [x|]; [simpl; eauto|].
  apply single_row_none_nil in Ho. rewrite Ho in Hf. contradiction.
Qed.

Lemma store_block_effect block st :
  let st' := final (store_block opcode_to_string hash_transaction
                      hash_block_header block st) in
  same_blocks st st'
  \/ (exists repr,
        serialize_bytes (hash_block_header block) = Some repr
        /\ stored_row st st' repr
        /\ (handled st' = handled st \/ handled st' = handled st ++ [false])).
Proof.
  unfold store_block.
  rewrite bind_eq, serialize_eq.
  destruct (serialize_bytes (hash_block_header block)) as [repr|];
    [|left; apply same_blocks_refl].
  rewrite bind_eq, serialize_eq.
  destruct (serialize_bytes (Message.prev_block block)) as [prev|];
    [|left; apply same_blocks_refl].
  rewrite bind_eq, serialize_eq.
  destruct (serialize_bytes (Message.merkle_root block)) as [mk|];
    [|left; apply same_blocks_refl].
  rewrite bind_eq, row_eq.
  destruct (single_row (select_block_hash repr st)) as [[x|]|] eqn:Hsel;
    [left; apply same_blocks_refl | | left; apply same_blocks_refl].
  right. exists repr. split; [reflexivity|].
  rewrite bind_eq. unfold insert_block_row. cbv beta iota zeta.
  set (st1 := with_blocks st _ _).
  rewrite bind_eq.
  set (loop := for_each _ 0 (Message.transactions block)).
  assert (Hloop : keeps same_blocks loop).
  { subst loop. same_blocks_tac. }
  specialize (Hloop st1).
  destruct (loop st1) as [[] st2|e st2]; cbn [final] in Hloop;
    destruct Hloop as (Hb & Hs & Hh);
    unfold handle_store, exec, stored_row;
    cbn [final with_handled blocks blocks_block_id_seq handled];
    rewrite ?Hb, ?Hs, ?Hh; subst st1;
    cbn [with_blocks blocks blocks_block_id_seq handled].
  - split; [|now right].
    eexists. repeat split; try reflexivity.
    now apply select_block_hash_empty.
  - split; [|now left].
    eexists. repeat split; try reflexivity.
    now apply select_block_hash_empty.
Qed.

End StoreFacts.

Lemma serialize_bytes_nonempty data :
  data <> [] -> exists s, serialize_bytes data = Some s.
Proof.
  destruct data as [|b data]; [congruence|]. intros _.
  unfold serialize_bytes. simpl flat_map. unfold serialize_byte at 1.
  destruct (Hex.setw_fill 2 "0" (Hex.show (to_N b))); simpl; eauto.
Qed.

(** ** [store(block)] on a block that is already there *)

(** C9.  On a [blocks] table with unique hashes, when the hash of the
    block's header is already the [block_hash] of a row, [store] returns
    and leaves every table, every sequence and the handler's call list as
    they were: no row is inserted and the completion handler is not
    called.  And whenever the handler has been called by [store], it has
    been called once, with [false], and a row for the block has been
    added to a table that did not have its hash. *)
Theorem store_block_duplicate_is_silent
    (opcode : Type) (opcode_to_string : opcode -> string)
    (hash_transaction : Message.transaction opcode -> hash_digest)
    (hash_block_header : Message.block opcode -> hash_digest)
    (block : Message.block opcode) (st : state) (repr : string) :
  NoDup (map block_hash (blocks st)) ->
  serialize_bytes (hash_block_header block) = Some repr ->
  Message.prev_block block <> [] ->
  Message.merkle_root block <> [] ->
  let call := store_block opcode_to_string hash_transaction
                hash_block_header block st in
  ((exists r, In r (blocks st) /\ block_hash r = repr) -> call = Ret tt st)
  /\ (handled (final call) <> handled st ->
      handled (final call) = handled st ++ [false]
      /\ stored_row st (final call) repr).
Proof.
  intros Hnd Hrepr Hprev Hmerkle call. split.
  - intros (r & Hin & Hr). subst call. unfold store_block.
    destruct (serialize_bytes_nonempty _ Hprev) as (prev & Hp).
    destruct (serialize_bytes_nonempty _ Hmerkle) as (mk & Hm).
    rewrite bind_eq, serialize_eq, Hrepr.
    rewrite bind_eq, serialize_eq, Hp.
    rewrite bind_eq, serialize_eq, Hm.
    rewrite bind_eq, row_eq.
    destruct (select_block_hash_found repr st r Hnd Hin Hr) as (x & Hx).
    now rewrite Hx.
  - intros Hcalled.
    destruct (store_block_effect opcode opcode_to_string hash_transaction
                hash_block_header block st)
      as [(_ & _ & Hsame) | (repr' & Hrepr' & Hrow & [Hh | Hh])];
      fold call in Hsame || fold call in Hrow, Hh.
    + contradiction.
    + contradiction.
    + rewrite Hrepr in Hrepr'. injection Hrepr' as <-. now split.
Qed.

Lemma store_block_duplicate_is_silent_witness :
  store_block (fun _ : unit => ""%string) (fun _ => [x02]) (fun _ => [x01])
    duplicate_block (store_of [header_row 1 "01" "" None None None])
  = Ret tt (store_of [header_row 1 "01" "" None None None]).
Proof.
  refine (proj1 (store_block_duplicate_is_silent unit _ _ _ duplicate_block
                   _ "01"%string _ _ _ _) _).
  - repeat constructor. intros [].
  - reflexivity.
  - discriminate.
  - discriminate.
  - exists (header_row 1 "01" "" None None None).
    split; [left; reflexivity | reflexivity].
Defined.

(** ** One row of the organizer's loop *)

Lemma with_blocks_twice st rows rows' seq seq' :
  with_blocks (with_blocks st rows seq) rows' seq' = with_blocks st rows' seq'.
Proof. reflexivity. Qed.

Lemma single_row_firstn_1 {A} (l : list A) :
  single_row (firstn 1 l) = Some (hd_error l).
Proof. destruct l as [|a [|b l]]; reflexivity. Qed.

(** The six ways the loop body can go. *)
Lemma organize_row_eq id prev st :
  organize_row id prev st
  = match single_row (select_parent prev st) with
    | None => Throw multiple_rows_query st
    | Some None => Ret tt st
    | Some (Some parent) =>
        match depth parent, span_left parent, span_right parent with
        | Some pd, Some pl, Some pr =>
            if has_children pl pr pd st
            then Ret tt (with_blocks st (map (shift_spans pr) (blocks st))
                           (blocks_block_id_seq st))
            else if pl =? pr
            then Ret tt (with_blocks st
                           (map (set_linked (size_t_add pd 1) pl pl id)
                              (blocks st))
                           (blocks_block_id_seq st))
            else Throw assertion_failure st
        | _, _, _ => Throw null_value_fetch st
        end
    end.
Proof.
  unfold organize_row. rewrite bind_eq, row_eq.
  destruct (single_row (select_parent prev st)) as [[parent|]|];
    [|reflexivity..].
  unfold has_children, bind, row, get_size_t, lift, ret, throw,
    BITCOIN_ASSERT, update_blocks, exec.
  destruct (depth parent) as [pd|];
    [|now destruct (span_left parent), (span_right parent)].
  destruct (span_left parent) as [pl|]; [|now destruct (span_right parent)].
  destruct (span_right parent) as [pr|]; [|reflexivity].
  unfold select_children. rewrite single_row_firstn_1.
  destruct (hd_error _).
  - cbn [blocks blocks_block_id_seq with_blocks]. rewrite map_map.
    reflexivity.
  - destruct (pl =? pr); reflexivity.
Qed.

Lemma select_parent_In prev st parent :
  single_row (select_parent prev st) = Some (Some parent) ->
  In parent (blocks st) /\ block_hash parent = prev /\ linked parent.
Proof.
  unfold select_parent. intros H. apply single_row_some_In in H.
  apply filter_In in H. destruct H as (Hin & Hc).
  apply andb_true_iff in Hc. destruct Hc as (Hh & Hd).
  apply String.eqb_eq in Hh. repeat split; auto.
  unfold linked. now destruct (depth parent).
Qed.

Lemma select_parent_None prev st :
  single_row (select_parent prev st) = Some None ->
  forall p, In p (blocks st) -> linked p -> block_hash p <> prev.
Proof.
  unfold select_parent. intros H p Hin Hl Heq.
  apply single_row_none_nil in H.
  assert (Hf : In p
                 (filter (fun r => String.eqb (block_hash r) prev
                                   && Sql.is_not_null (depth r))
                    (blocks st))).
  { apply filter_In. split; [exact Hin|].
    apply andb_true_iff. split; [now apply String.eqb_eq|].
    unfold linked in Hl. now destruct (depth p). }
  rewrite H in Hf. contradiction.
Qed.

(** On a table with unique hashes the parent lookup does not throw. *)
Lemma select_parent_single prev st :
  NoDup (map block_hash (blocks st)) ->
  exists o, single_row (select_parent prev st) = Some o.
Proof.
  intros Hnd. unfold select_parent.
  apply single_row_unique_hash with (h := prev); [exact Hnd|].
  intros r Hr. apply andb_true_iff in Hr. now apply String.eqb_eq.
Qed.

(** ** The fork check *)

Lemma within_and_deeper_iff pl pr pd r :
  within_and_deeper pl pr pd r = true
  <-> exists l r' d,
        span_left r = Some l /\ span_right r = Some r' /\ depth r = Some d
        /\ pl <= l /\ r' <= pr /\ pd < d.
Proof.
  unfold within_and_deeper, Sql.holds, Sql.and, Sql.ge, Sql.le, Sql.gt.
  split.
  - destruct (span_left r) as [l|], (span_right r) as [r'|],
      (depth r) as [d|];
      try destruct (pl <=? l) eqn:E1; try destruct (r' <=? pr) eqn:E2;
      try destruct (pd <? d) eqn:E3; try discriminate.
    intros _. exists l, r', d.
    apply N.leb_le in E1, E2. apply N.ltb_lt in E3. auto 10.
  - intros (l & r' & d & -> & -> & -> & H1 & H2 & H3).
    apply N.leb_le in H1, H2. apply N.ltb_lt in H3.
    now rewrite H1, H2, H3.
Qed.

Lemma has_children_existsb pl pr pd st :
  has_children pl pr pd st = existsb (within_and_deeper pl pr pd) (blocks st).
Proof.
  unfold has_children, select_children. rewrite single_row_firstn_1.
  induction (blocks st) as [|r rows IH]; [reflexivity|].
  simpl. destruct (within_and_deeper pl pr pd r); [reflexivity|].
  exact IH.
Qed.

(** C8.  The test the organizer makes for a candidate parent with
    interval [(pl, pr)] and depth [pd] (the test [organize_row_eq] shows
    its loop to branch on) answers true exactly when some row of [blocks]
    has its depth and both bounds set, lies within the parent's interval,
    bounds included ([pl <= span_left] and [span_right <= pr]), and is
    strictly deeper than the parent.  So a row with a [NULL] depth never
    counts, and a row need not have the parent's interval to count. *)
Theorem has_children_iff_contained_deeper (pl pr pd : N) (st : state) :
  has_children pl pr pd st = true
  <-> exists r l r' d,
        In r (blocks st)
        /\ span_left r = Some l /\ span_right r = Some r' /\ depth r = Some d
        /\ pl <= l /\ r' <= pr /\ pd < d.
Proof.
  rewrite has_children_existsb, existsb_exists. split.
  - intros (r & Hin & Hr). apply within_and_deeper_iff in Hr.
    destruct Hr as (l & r' & d & Hr). exists r, l, r', d. tauto.
  - intros (r & l & r' & d & Hin & Hr). exists r. split; [exact Hin|].
    apply within_and_deeper_iff. exists l, r', d. tauto.
Qed.

(** ** What the updates keep of a row *)

(** Both bounds of the row set or not, and where they lie with respect
    to the slot. *)
Ltac shift_cases r :=
  destruct r as [? ? ? ? ? ? ? ? ? ? [?|] [?|]];
  unfold shift_spans, shift_span_right, shift_span_left;
  cbn [span_left span_right Sql.holds Sql.ge Sql.succ];
  repeat (match goal with
          | |- context [?a <=? ?b] => destruct (a <=? b)
          end;
          cbn [span_left span_right Sql.holds Sql.ge Sql.succ]);
  try reflexivity.

Lemma shift_spans_block_id c r : block_id (shift_spans c r) = block_id r.
Proof. shift_cases r. Qed.

Lemma shift_spans_block_hash c r : block_hash (shift_spans c r) = block_hash r.
Proof. shift_cases r. Qed.

Lemma shift_spans_prev c r :
  prev_block_hash (shift_spans c r) = prev_block_hash r.
Proof. shift_cases r. Qed.

Lemma shift_spans_depth c r : depth (shift_spans c r) = depth r.
Proof. shift_cases r. Qed.

Lemma shift_spans_left c r :
  span_left (shift_spans c r) = shifted c (span_left r).
Proof. unfold shifted. shift_cases r. Qed.

Lemma shift_spans_right c r :
  span_right (shift_spans c r) = shifted c (span_right r).
Proof. unfold shifted. shift_cases r. Qed.

Lemma shift_spans_unset c r :
  span_left r = None -> span_right r = None -> shift_spans c r = r.
Proof.
  intros Hl Hr. unfold shift_spans, shift_span_right, shift_span_left.
  rewrite Hl. simpl. now rewrite Hr.
Qed.

Lemma set_linked_block_id d l r id x :
  block_id (set_linked d l r id x) = block_id x.
Proof. unfold set_linked. now destruct (block_id x =? id). Qed.

Lemma set_linked_block_hash d l r id x :
  block_hash (set_linked d l r id x) = block_hash x.
Proof. unfold set_linked. now destruct (block_id x =? id). Qed.

Lemma set_linked_prev d l r id x :
  prev_block_hash (set_linked d l r id x) = prev_block_hash x.
Proof. unfold set_linked. now destruct (block_id x =? id). Qed.

Lemma set_linked_other d l r id x :
  block_id x <> id -> set_linked d l r id x = x.
Proof.
  intros H. unfold set_linked.
  destruct (N.eqb_spec (block_id x) id); [contradiction | reflexivity].
Qed.

Lemma set_linked_hit d l r id x :
  block_id x = id ->
  depth (set_linked d l r id x) = Some d
  /\ span_left (set_linked d l r id x) = Some l
  /\ span_right (set_linked d l r id x) = Some r.
Proof.
  intros H. unfold set_linked. rewrite H, N.eqb_refl. now repeat split.
Qed.

(** ** Keys *)

Lemma unique_block_id rows a b :
  NoDup (map block_id rows) -> In a rows -> In b rows ->
  block_id a = block_id b -> a = b.
Proof.
  induction rows as [|r rows IH]; simpl; [contradiction|].
  intros Hnd [Ha | Ha] [Hb | Hb] Heq; inversion Hnd as [|? ? Hnotin Hnd'];
    subst.
  - reflexivity.
  - exfalso. apply Hnotin. rewrite Heq. now apply in_map.
  - exfalso. apply Hnotin. rewrite <- Heq. now apply in_map.
  - now apply IH.
Qed.

Lemma map_block_id_fixed (f : block_row -> block_row) rows :
  (forall r, block_id (f r) = block_id r) ->
  map block_id (map f rows) = map block_id rows.
Proof.
  intros H. rewrite map_map. apply map_ext. exact H.
Qed.

Lemma map_block_hash_fixed (f : block_row -> block_row) rows :
  (forall r, block_hash (f r) = block_hash r) ->
  map block_hash (map f rows) = map block_hash rows.
Proof.
  intros H. rewrite map_map. apply map_ext. exact H.
Qed.

(** ** Counting linked rows *)

Lemma linked_count_le_length rows : (linked_count rows <= List.length rows)%nat.
Proof. unfold linked_count. apply filter_length_le. Qed.

Lemma linked_count_same_depth (f : block_row -> block_row) rows :
  (forall r, depth (f r) = depth r) ->
  linked_count (map f rows) = linked_count rows.
Proof.
  intros H. unfold linked_count.
  induction rows as [|r rows IH]; [reflexivity|].
  simpl. rewrite H. destruct (Sql.is_not_null (depth r)); simpl; now rewrite IH.
Qed.

Lemma linked_count_set_linked_le d l r id rows :
  (linked_count rows <= linked_count (map (set_linked d l r id) rows))%nat.
Proof.
  unfold linked_count. induction rows as [|x rows IH]; [apply le_n|].
  simpl. unfold set_linked at 1.
  destruct (block_id x =? id); simpl.
  - destruct (Sql.is_not_null (depth x)); simpl; lia.
  - destruct (Sql.is_not_null (depth x)); simpl; lia.
Qed.

Lemma linked_count_set_linked d l r id rows r0 :
  In r0 rows -> depth r0 = None -> block_id r0 = id ->
  (linked_count rows + 1 <= linked_count (map (set_linked d l r id) rows))%nat.
Proof.
  intros Hin Hd Hid. induction rows as [|x rows IH]; [contradiction|].
  destruct Hin as [-> | Hin].
  - pose proof (linked_count_set_linked_le d l r id rows) as Hle.
    unfold linked_count in *. simpl. unfold set_linked at 1.
    rewrite Hid, N.eqb_refl, Hd. simpl. lia.
  - specialize (IH Hin). unfold linked_count in *. simpl.
    unfold set_linked at 1.
    destruct (block_id x =? id); simpl;
      destruct (Sql.is_not_null (depth x)); simpl; lia.
Qed.

Lemma linked_count_app_pending rows r :
  depth r = None -> linked_count (rows ++ [r]) = linked_count rows.
Proof.
  intros H. unfold linked_count. rewrite filter_app. simpl. rewrite H.
  simpl. now rewrite app_nil_r.
Qed.

(** ** [ORDER BY] only reorders *)

Lemma insert_asc_perm x l : Permutation (insert_asc x l) (x :: l).
Proof.
  induction l as [|y l IH]; simpl; [apply Permutation_refl|].
  destruct (fst x <=? fst y); [apply Permutation_refl|].
  eapply perm_trans; [apply perm_skip, IH | apply perm_swap].
Qed.

Lemma order_by_block_id_perm l : Permutation (order_by_block_id l) l.
Proof.
  induction l as [|x l IH]; simpl; [apply perm_nil|].
  eapply perm_trans; [apply insert_asc_perm | apply perm_skip, IH].
Qed.

(** ** The invariant of the organizer *)

Lemma size_t_add_le a b : size_t_add a b <= a + b.
Proof. unfold size_t_add. apply N.Div0.mod_le. Qed.

Lemma size_t_add_small a b : a + b < SIZE_MAX_succ -> size_t_add a b = a + b.
Proof. intros H. unfold size_t_add. now apply N.mod_small. Qed.

Lemma single_chain_shift n rows :
  single_chain n rows -> single_chain (n + 1) (map (shift_spans n) rows).
Proof.
  intros H r' Hin. apply in_map_iff in Hin. destruct Hin as (r & <- & Hin).
  specialize (H r Hin).
  rewrite shift_spans_depth, shift_spans_left, shift_spans_right.
  destruct (depth r); destruct H as [-> ->]; unfold shifted.
  - rewrite N.leb_refl. auto.
  - auto.
Qed.

Lemma single_chain_set_linked n d id rows :
  single_chain n rows -> single_chain n (map (set_linked d n n id) rows).
Proof.
  intros H r' Hin. apply in_map_iff in Hin. destruct Hin as (r & <- & Hin).
  specialize (H r Hin). unfold set_linked.
  destruct (block_id r =? id); [simpl; auto | exact H].
Qed.

Lemma single_chain_app n rows r :
  single_chain n rows ->
  depth r = None -> span_left r = None -> span_right r = None ->
  single_chain n (rows ++ [r]).
Proof.
  intros H Hd Hl Hr x Hin. apply in_app_or in Hin.
  destruct Hin as [Hin | [<- | []]]; [now apply H|].
  rewrite Hd. auto.
Qed.

Lemma single_chain_linked_spans n rows r :
  single_chain n rows -> In r rows -> linked r ->
  span_left r = Some n /\ span_right r = Some n.
Proof.
  intros H Hin Hl. specialize (H r Hin). unfold linked in Hl.
  destruct (depth r); [exact H | congruence].
Qed.

Lemma organized_shift root st n :
  organized root st -> single_chain n (blocks st) ->
  organized root
    (with_blocks st (map (shift_spans n) (blocks st)) (blocks_block_id_seq st)).
Proof.
  intros [_ Hhashes Hids Hseq Hroot Hbound Hparent] Hn.
  constructor; cbn [blocks blocks_block_id_seq with_blocks].
  - exists (n + 1). now apply single_chain_shift.
  - rewrite map_block_hash_fixed;
      [exact Hhashes | apply shift_spans_block_hash].
  - rewrite map_block_id_fixed; [exact Hids | apply shift_spans_block_id].
  - intros r' Hin. apply in_map_iff in Hin. destruct Hin as (r & <- & Hin).
    rewrite shift_spans_block_id. now apply Hseq.
  - destruct Hroot as (r & Hin & Hid & Hl). exists (shift_spans n r).
    split; [now apply in_map|]. split.
    + now rewrite shift_spans_block_id.
    + unfold linked. now rewrite shift_spans_depth.
  - intros r' d Hin Hd. apply in_map_iff in Hin.
    destruct Hin as (r & <- & Hin). rewrite shift_spans_depth in Hd.
    rewrite linked_count_same_depth; [eauto | apply shift_spans_depth].
  - intros r' d Hin Hd Hne. apply in_map_iff in Hin.
    destruct Hin as (r & <- & Hin).
    rewrite shift_spans_depth in Hd. rewrite shift_spans_block_id in Hne.
    destruct (Hparent r d Hin Hd Hne) as (p & d' & Hp & Hh & Hpd & Hdd).
    exists (shift_spans n p), d'. split; [now apply in_map|].
    now rewrite shift_spans_block_hash, shift_spans_prev, shift_spans_depth.
Qed.

Lemma pending_not_linked_id rows a b :
  NoDup (map block_id rows) -> In a rows -> In b rows ->
  depth a = None -> linked b -> block_id b <> block_id a.
Proof.
  intros Hnd Ha Hb Hd Hl Heq.
  assert (b = a) by (eapply unique_block_id; eauto).
  subst. now apply Hl.
Qed.

Lemma organized_link root st n id parent pd r0 :
  organized root st -> single_chain n (blocks st) ->
  In parent (blocks st) -> depth parent = Some pd ->
  block_hash parent = prev_block_hash r0 ->
  In r0 (blocks st) -> block_id r0 = id -> depth r0 = None ->
  organized root
    (with_blocks st (map (set_linked (size_t_add pd 1) n n id) (blocks st))
       (blocks_block_id_seq st)).
Proof.
  intros [_ Hhashes Hids Hseq Hroot Hbound Hparent] Hn Hpin Hpd Hph Hin0
    Hid0 Hd0.
  set (f := set_linked (size_t_add pd 1) n n id).
  assert (Hfix : forall p, In p (blocks st) -> linked p -> f p = p).
  { intros p Hp Hl. apply set_linked_other. rewrite <- Hid0.
    eapply pending_not_linked_id; eauto. }
  constructor; cbn [blocks blocks_block_id_seq with_blocks].
  - exists n. now apply single_chain_set_linked.
  - rewrite map_block_hash_fixed; [exact Hhashes|].
    intros r. apply set_linked_block_hash.
  - rewrite map_block_id_fixed; [exact Hids|].
    intros r. apply set_linked_block_id.
  - intros r' Hin. apply in_map_iff in Hin. destruct Hin as (r & <- & Hin).
    unfold f. rewrite set_linked_block_id. now apply Hseq.
  - destruct Hroot as (r & Hin & Hid & Hl). exists r.
    split; [|now split]. rewrite <- (Hfix r Hin Hl). now apply in_map.
  - intros r' d Hin Hd. apply in_map_iff in Hin.
    destruct Hin as (r & <- & Hin).
    pose proof (linked_count_set_linked (size_t_add pd 1) n n id
                  (blocks st) r0 Hin0 Hd0 Hid0) as Hcount.
    fold f in Hcount.
    destruct (N.eq_dec (block_id r) id) as [He | He].
    + destruct (set_linked_hit (size_t_add pd 1) n n id r He) as (Hd' & _).
      fold f in Hd'. rewrite Hd' in Hd. injection Hd as <-.
      pose proof (Hbound parent pd Hpin Hpd).
      pose proof (size_t_add_le pd 1). lia.
    + unfold f in Hd. rewrite set_linked_other in Hd by exact He.
      pose proof (Hbound r d Hin Hd). lia.
  - intros r' d Hin Hd Hne. apply in_map_iff in Hin.
    destruct Hin as (r & <- & Hin).
    destruct (N.eq_dec (block_id r) id) as [He | He].
    + assert (r = r0) by (eapply unique_block_id; eauto; congruence).
      subst r.
      destruct (set_linked_hit (size_t_add pd 1) n n id r0 He) as (Hd' & _).
      fold f in Hd'. rewrite Hd' in Hd. injection Hd as <-.
      exists parent, pd. split.
      * rewrite <- (Hfix parent Hpin); [now apply in_map|].
        unfold linked. congruence.
      * unfold f. rewrite set_linked_prev. auto.
    + unfold f in Hd, Hne |- *. rewrite set_linked_other in * by exact He.
      destruct (Hparent r d Hin Hd Hne) as (p & d' & Hp & Hh & Hpd' & Hdd).
      exists p, d'. split; [|auto].
      fold f. rewrite <- (Hfix p Hp); [now apply in_map|].
      unfold linked. congruence.
Qed.

Lemma organized_store root st st' repr :
  organized root st -> stored_row st st' repr -> organized root st'.
Proof.
  intros [(n & Hn) Hhashes Hids Hseq Hroot Hbound Hparent]
    (new_row & Hb & Hid & Hs & Hh & Hd & Hl & Hr & Hnew).
  constructor; rewrite ?Hb, ?Hs.
  - exists n. now apply single_chain_app.
  - rewrite map_app. simpl. apply NoDup_app.
    + exact Hhashes.
    + constructor; [intros [] | constructor].
    + intros x Hx [<- | []]. apply in_map_iff in Hx.
      destruct Hx as (r & Hrh & Hin). apply (Hnew r Hin). congruence.
  - rewrite map_app. simpl. apply NoDup_app.
    + exact Hids.
    + constructor; [intros [] | constructor].
    + intros x Hx [<- | []]. apply in_map_iff in Hx.
      destruct Hx as (r & Hrid & Hin). specialize (Hseq r Hin). lia.
  - intros r Hin. apply in_app_or in Hin.
    destruct Hin as [Hin | [<- | []]]; [specialize (Hseq r Hin)|]; lia.
  - destruct Hroot as (r & Hin & Hrid & Hrl). exists r.
    split; [apply in_or_app; now left | now split].
  - intros r d Hin Hrd. rewrite linked_count_app_pending by exact Hd.
    apply in_app_or in Hin.
    destruct Hin as [Hin | [<- | []]]; [eauto | congruence].
  - intros r d Hin Hrd Hne. apply in_app_or in Hin.
    destruct Hin as [Hin | [<- | []]]; [|congruence].
    destruct (Hparent r d Hin Hrd Hne) as (p & d' & Hp & Hrest).
    exists p, d'. split; [apply in_or_app; now left | exact Hrest].
Qed.

(** ** The rows the loop still has to visit *)

Lemma NoDup_map_filter (f : block_row -> bool) rows :
  NoDup (map block_id rows) -> NoDup (map block_id (filter f rows)).
Proof.
  induction rows as [|r rows IH]; simpl; [auto|].
  intros Hnd. inversion Hnd as [|? ? Hnotin Hnd']; subst.
  destruct (f r); simpl; [|auto]. constructor; [|auto].
  intros Hin. apply Hnotin. apply in_map_iff in Hin.
  destruct Hin as (x & Hx & Hin). apply filter_In in Hin.
  rewrite <- Hx. apply in_map. tauto.
Qed.

Lemma select_pending_ok st :
  NoDup (map block_id (blocks st)) ->
  snapshot_ok (blocks st) (select_pending st).
Proof.
  intros Hnd. unfold select_pending.
  set (l := map _ (filter _ (blocks st))).
  pose proof (order_by_block_id_perm l) as Hperm. split.
  - eapply Permutation_NoDup.
    + apply Permutation_sym, Permutation_map, Hperm.
    + subst l. rewrite map_map. simpl.
      now apply (NoDup_map_filter (fun r => Sql.is_null (depth r))).
  - intros id prev Hin.
    eapply Permutation_in in Hin; [|exact Hperm].
    subst l. apply in_map_iff in Hin. destruct Hin as (r & Heq & Hin).
    apply filter_In in Hin. destruct Hin as (Hin & Hnull).
    injection Heq as <- <-. exists r. repeat split; auto.
    now destruct (depth r).
Qed.

Lemma snapshot_ok_firstn rows res k :
  snapshot_ok rows res -> snapshot_ok rows (firstn k res).
Proof.
  intros (Hnd & Hin). split.
  - rewrite <- firstn_map.
    rewrite <- (firstn_skipn k (map fst res)) in Hnd.
    now apply NoDup_app_remove_r in Hnd.
  - intros id prev H. apply Hin. rewrite <- (firstn_skipn k res).
    apply in_or_app. now left.
Qed.

Lemma snapshot_ok_tail rows x res :
  snapshot_ok rows (x :: res) -> snapshot_ok rows res.
Proof.
  intros (Hnd & Hin). split.
  - now inversion Hnd.
  - intros id prev H. apply Hin. now right.
Qed.

Lemma snapshot_ok_shift rows c res :
  snapshot_ok rows res -> snapshot_ok (map (shift_spans c) rows) res.
Proof.
  intros (Hnd & Hin). split; [exact Hnd|].
  intros id prev H. destruct (Hin id prev H) as (r & Hr & Hid & Hp & Hd).
  exists (shift_spans c r). split; [now apply in_map|].
  now rewrite shift_spans_block_id, shift_spans_prev, shift_spans_depth.
Qed.

Lemma snapshot_ok_set_linked rows d l r id prev res :
  snapshot_ok rows ((id, prev) :: res) ->
  snapshot_ok (map (set_linked d l r id) rows) res.
Proof.
  intros (Hnd & Hin). inversion Hnd as [|? ? Hnotin Hnd']; subst.
  split; [exact Hnd'|].
  intros id' prev' H.
  destruct (Hin id' prev' (or_intror H)) as (x & Hx & Hid & Hp & Hd).
  exists x. split; [|auto].
  rewrite <- (set_linked_other d l r id x); [now apply in_map|].
  intros He. apply Hnotin. rewrite <- He, Hid.
  now apply (in_map fst _ (id', prev')).
Qed.

(** One row of the loop, on a table that satisfies the invariant: the
    body returns, and the invariant holds again. *)
Lemma organize_row_organized root st id prev res :
  organized root st -> snapshot_ok (blocks st) ((id, prev) :: res) ->
  exists st',
    organize_row id prev st = Ret tt st'
    /\ organized root st' /\ snapshot_ok (blocks st') res.
Proof.
  intros Horg Hsnap. rewrite organize_row_eq.
  destruct (select_parent_single prev st (org_hashes _ _ Horg)) as (o & Hsel).
  rewrite Hsel. destruct o as [parent|].
  - apply select_parent_In in Hsel. destruct Hsel as (Hpin & Hph & Hpl).
    destruct (org_chain _ _ Horg) as (n & Hn).
    destruct (single_chain_linked_spans n _ _ Hn Hpin Hpl) as (Hl & Hr).
    rewrite Hl, Hr. unfold linked in Hpl.
    destruct (depth parent) as [pd|] eqn:Hpd; [|congruence].
    destruct (has_children n n pd st).
    + eexists. split; [reflexivity|]. split.
      * now apply organized_shift.
      * apply snapshot_ok_shift. eapply snapshot_ok_tail, Hsnap.
    + rewrite N.eqb_refl. eexists. split; [reflexivity|]. split.
      * destruct Hsnap as (_ & Hin).
        destruct (Hin id prev (or_introl eq_refl))
          as (r0 & Hr0 & Hid0 & Hp0 & Hd0).
        apply (organized_link root st n id parent pd r0); auto.
        congruence.
      * cbn [blocks with_blocks].
        eapply snapshot_ok_set_linked, Hsnap.
  - exists st. split; [reflexivity|]. split; [exact Horg|].
    eapply snapshot_ok_tail, Hsnap.
Qed.

(** The whole loop, over any part of the rows selected. *)
Lemma organize_loop_organized root res st :
  organized root st -> snapshot_ok (blocks st) res ->
  exists st', organize_loop res st = Ret tt st' /\ organized root st'.
Proof.
  revert st. induction res as [|[id prev] res IH]; intros st Horg Hsnap.
  - exists st. now split.
  - destruct (organize_row_organized root st id prev res Horg Hsnap)
      as (st1 & Hrow & Horg1 & Hsnap1).
    destruct (IH st1 Horg1 Hsnap1) as (st' & Hloop & Horg').
    exists st'. split; [|exact Horg'].
    cbn [organize_loop]. now rewrite bind_eq, Hrow.
Qed.

Lemma organize_blockchain_eq st :
  organize_blockchain st = organize_loop (select_pending st) st.
Proof. reflexivity. Qed.

Lemma initial_organized root st : initial root st -> organized root st.
Proof.
  intros (Hhashes & Hids & Hseq
          & (r0 & c & Hin0 & Hid0 & Hd0 & Hl0 & Hr0) & Hrest).
  assert (Hone : forall r, In r (blocks st) -> linked r -> r = r0).
  { intros r Hin Hl. destruct (N.eq_dec (block_id r) root) as [He | He].
    - eapply unique_block_id; eauto. congruence.
    - destruct (Hrest r Hin He) as (Hd & _). contradiction. }
  constructor; auto.
  - exists c. intros r Hin.
    destruct (depth r) eqn:Hd.
    + rewrite (Hone r Hin); [auto|]. unfold linked. congruence.
    + destruct (N.eq_dec (block_id r) root) as [He | He].
      * assert (r = r0) by (eapply unique_block_id; eauto; congruence).
        subst. congruence.
      * destruct (Hrest r Hin He) as (_ & H1 & H2). auto.
  - exists r0. repeat split; auto. unfold linked. congruence.
  - intros r d Hin Hd.
    rewrite (Hone r Hin) in Hd by (unfold linked; congruence).
    assert (d = 0) by congruence. subst d.
    assert (0 < linked_count (blocks st))%nat; [|lia].
    unfold linked_count.
    assert (Hf : In r0 (filter (fun r => Sql.is_not_null (depth r))
                          (blocks st))).
    { apply filter_In. split; [exact Hin0|]. now rewrite Hd0. }
    destruct (filter _ (blocks st)); [contradiction | simpl; lia].
  - intros r d Hin Hd Hne. destruct (Hrest r Hin Hne) as (Hnone & _).
    congruence.
Qed.

(** Every state the store goes through satisfies the invariant. *)
Lemma reachable_organized root st : reachable root st -> organized root st.
Proof.
  induction 1 as [st Hinit | st k _ IH
                 | opcode ots ht hb block st _ IH].
  - now apply initial_organized.
  - destruct (organize_loop_organized root (firstn k (select_pending st)) st)
      as (st' & Heq & Horg); [exact IH | |].
    + apply snapshot_ok_firstn, select_pending_ok, (org_ids _ _ IH).
    + now rewrite Heq.
  - destruct (store_block_effect opcode ots ht hb block st)
      as [(Hb & Hs & _) | (repr & _ & Hrow & _)].
    + destruct IH as [Hc Hhashes Hids Hseq Hroot Hbound Hparent].
      constructor; rewrite ?Hb, ?Hs; auto.
    + eapply organized_store; eauto.
Qed.

(** ** Intervals of ancestors *)

Lemma ancestor_linked rows a b :
  ancestor rows a b -> In a rows /\ In b rows /\ linked a /\ linked b.
Proof.
  induction 1 as [a b (Ha & Hb & Hla & Hlb & _)
                 | a b c _ (Ha & _ & Hla & _) (_ & Hc & _ & Hlc & _)];
    auto.
Qed.

(** C1.  In every state the store goes through from a single linked
    root (between invocations of the organizer, inside one, and with new
    blocks stored in between), whenever [a] is an ancestor of [b] along
    [prev_block_hash] links between linked rows, both have an interval
    and [a.span_left <= b.span_left <= b.span_right <= a.span_right]. *)
Theorem reachable_containment (root : N) (st : state) (a b : block_row) :
  reachable root st -> ancestor (blocks st) a b -> contains a b.
Proof.
  intros Hreach Hanc. apply reachable_organized in Hreach.
  destruct (org_chain _ _ Hreach) as (n & Hn).
  apply ancestor_linked in Hanc. destruct Hanc as (Ha & Hb & Hla & Hlb).
  destruct (single_chain_linked_spans n _ _ Hn Ha Hla) as (Hal & Har).
  destruct (single_chain_linked_spans n _ _ Hn Hb Hlb) as (Hbl & Hbr).
  exists n, n, n, n. repeat split; auto; apply N.le_refl.
Qed.

Lemma chain3_initial : initial 1 chain3.
Proof.
  unfold initial. split; [|split; [|split; [|split]]].
  - repeat constructor; simpl; intuition discriminate.
  - repeat constructor; simpl; intuition discriminate.
  - intros r [<- | [<- | [<- | []]]]; vm_compute; discriminate.
  - exists root_R, 0. repeat split. now left.
  - intros r [<- | [<- | [<- | []]]] Hne;
      [now elim Hne | now repeat split..].
Qed.

Lemma chain3_linked_reachable : reachable 1 chain3_linked.
Proof. exact (reach_organize 1 chain3 2 (reach_initial 1 chain3 chain3_initial)). Qed.

Lemma chain3_ancestor : ancestor (blocks chain3_linked) root_R linked_B1a.
Proof.
  apply ancestor_step with (b := linked_B1); [apply ancestor_parent|];
    unfold parent_of, linked; simpl; intuition discriminate.
Qed.

Lemma reachable_containment_witness : contains root_R linked_B1a.
Proof.
  exact (reachable_containment 1 chain3_linked root_R linked_B1a
           chain3_linked_reachable chain3_ancestor).
Defined.

(** ** Depths *)

(** C6.  In every state the store goes through from a single linked
    root, a linked row other than the root (that is, a row the organizer
    linked) has a linked parent row, one whose [block_hash] is its
    [prev_block_hash] and whose depth is set, and its depth is that
    parent's depth plus one.  [block_id] is a [size_t], so the table has
    fewer than [2^64] rows, and the [size_t] addition that computes the
    depth does not wrap around. *)
Theorem linked_depth_is_parent_depth_plus_one (root : N) (st : state)
    (r : block_row) (d : N) :
  reachable root st ->
  N.of_nat (List.length (blocks st)) < SIZE_MAX_succ ->
  In r (blocks st) -> depth r = Some d -> block_id r <> root ->
  exists p d',
    In p (blocks st) /\ block_hash p = prev_block_hash r
    /\ depth p = Some d' /\ d = d' + 1.
Proof.
  intros Hreach Hlen Hin Hd Hne. apply reachable_organized in Hreach.
  destruct (org_parent _ _ Hreach r d Hin Hd Hne)
    as (p & d' & Hp & Hh & Hpd & Hdd).
  exists p, d'. repeat split; auto.
  rewrite Hdd. apply size_t_add_small.
  pose proof (org_bound _ _ Hreach p d' Hp Hpd) as Hb.
  pose proof (linked_count_le_length (blocks st)). lia.
Qed.

Lemma linked_depth_is_parent_depth_plus_one_witness :
  exists p d',
    In p (blocks chain3_linked) /\ block_hash p = prev_block_hash linked_B1a
    /\ depth p = Some d' /\ 2 = d' + 1.
Proof.
  apply (linked_depth_is_parent_depth_plus_one 1 chain3_linked linked_B1a 2).
  - exact chain3_linked_reachable.
  - vm_compute. reflexivity.
  - simpl. auto.
  - reflexivity.
  - vm_compute. discriminate.
Defined.

(** ** The assertion of the no-fork branch *)

Lemma organize_row_returns n st id prev :
  NoDup (map block_hash (blocks st)) ->
  single_chain n (blocks st) ->
  exists st', organize_row id prev st = Ret tt st'.
Proof.
  intros Hnd Hn. rewrite organize_row_eq.
  destruct (select_parent_single prev st Hnd) as (o & Hsel).
  rewrite Hsel. destruct o as [parent|]; [|eauto].
  apply select_parent_In in Hsel. destruct Hsel as (Hpin & _ & Hpl).
  destruct (single_chain_linked_spans n _ _ Hn Hpin Hpl) as (Hl & Hr).
  rewrite Hl, Hr. unfold linked in Hpl.
  destruct (depth parent); [|congruence].
  destruct (has_children n n n0 st); [eauto|].
  rewrite N.eqb_refl. eauto.
Qed.

(** C7.  In every state the store goes through from a single linked
    root, the states inside an invocation included: the parent lookup
    selects at most one row, and a parent it finds has both bounds of its
    interval set and equal, whether or not the fork check finds a
    descendant, so wherever the no-fork branch is taken
    [parent_span_left == parent_span_right] holds; no row of the loop
    ends in a failed assertion (or in any other exception), and the
    invocation returns. *)
Theorem no_fork_assertion_never_fails (root : N) (st : state) :
  reachable root st ->
  (forall prev, exists found,
      single_row (select_parent prev st) = Some found
      /\ forall parent, found = Some parent ->
           exists c, span_left parent = Some c /\ span_right parent = Some c)
  /\ (forall id prev, exists st', organize_row id prev st = Ret tt st')
  /\ (exists st', organize_blockchain st = Ret tt st').
Proof.
  intros Hreach. apply reachable_organized in Hreach.
  destruct (org_chain _ _ Hreach) as (n & Hn). split; [|split].
  - intros prev.
    destruct (select_parent_single prev st (org_hashes _ _ Hreach))
      as (found & Hsel).
    exists found. split; [exact Hsel|]. intros parent ->.
    apply select_parent_In in Hsel.
    destruct Hsel as (Hpin & _ & Hpl). exists n.
    now apply single_chain_linked_spans with (rows := blocks st).
  - intros id prev. apply organize_row_returns with (n := n); [|exact Hn].
    exact (org_hashes _ _ Hreach).
  - rewrite organize_blockchain_eq.
    destruct (organize_loop_organized root (select_pending st) st Hreach)
      as (st' & Heq & _); [|eauto].
    apply select_pending_ok, (org_ids _ _ Hreach).
Qed.

Lemma no_fork_assertion_never_fails_witness :
  (forall prev, exists found,
      single_row (select_parent prev chain3) = Some found
      /\ forall parent, found = Some parent ->
           exists c, span_left parent = Some c /\ span_right parent = Some c)
  /\ (forall id prev, exists st', organize_row id prev chain3 = Ret tt st')
  /\ (exists st', organize_blockchain chain3 = Ret tt st').
Proof.
  exact (no_fork_assertion_never_fails 1 chain3
           (reach_initial 1 chain3 chain3_initial)).
Defined.

(** ** The fork branch *)

(** C5.  Take a table in which a row without a depth has no interval,
    a pending row [b] of it, the parent [select_parent] finds for [b],
    with depth [pd] and interval [(pl, pr)], and suppose the fork check
    answers true.  Then the loop body for [b] returns, and so does the
    invocation when [b] is the only pending row, and with [slot = pr]:
    every row keeps all its columns except that [span_left] is one more
    where it was set and [>= slot], and [span_right] is one more where it
    was set and [>= slot]; nothing else in the state changes; and [b]
    itself is still in the table as it was, without depth or interval. *)
Theorem fork_shifts_spans_and_nothing_else (st : state)
    (b parent : block_row) (pd pl pr : N) :
  (forall r, In r (blocks st) -> depth r = None ->
             span_left r = None /\ span_right r = None) ->
  In b (blocks st) -> depth b = None ->
  single_row (select_parent (prev_block_hash b) st) = Some (Some parent) ->
  depth parent = Some pd ->
  span_left parent = Some pl -> span_right parent = Some pr ->
  has_children pl pr pd st = true ->
  let slot := pr in
  let moved (v : Sql.value) : Sql.value :=
    match v with
    | Some x => if slot <=? x then Some (x + 1) else Some x
    | None => None
    end in
  let st' :=
    with_blocks st
      (map (fun r =>
              mk_block_row (block_id r) (block_hash r) (version r)
                (prev_block_hash r) (merkle r) (when_created r) (bits_head r)
                (bits_body r) (nonce r) (depth r)
                (moved (span_left r)) (moved (span_right r)))
         (blocks st))
      (blocks_block_id_seq st) in
  organize_row (block_id b) (prev_block_hash b) st = Ret tt st'
  /\ (select_pending st = [(block_id b, prev_block_hash b)] ->
      organize_blockchain st = Ret tt st')
  /\ In b (blocks st').
Proof.
  intros Hwf Hin Hd Hsel Hpd Hpl Hpr Hfork slot moved st'.
  assert (Hmap : map (shift_spans pr) (blocks st) = blocks st').
  { subst st'. cbn [blocks with_blocks]. apply map_ext. intros r.
    pose proof (shift_spans_left pr r) as Hl.
    pose proof (shift_spans_right pr r) as Hr.
    pose proof (shift_spans_depth pr r) as Hdp.
    pose proof (shift_spans_block_id pr r) as Hid.
    unfold shift_spans, shift_span_right, shift_span_left in *.
    destruct r as [? ? ? ? ? ? ? ? ? ? [l|] [x|]];
      cbn [span_left span_right Sql.holds Sql.ge Sql.succ moved] in *;
      subst slot;
      repeat (match goal with
              | |- context [?a <=? ?b] => destruct (a <=? b)
              end;
              cbn [span_left span_right Sql.holds Sql.ge Sql.succ]);
      reflexivity. }
  assert (Hrow : organize_row (block_id b) (prev_block_hash b) st = Ret tt st').
  { rewrite organize_row_eq, Hsel, Hpd, Hpl, Hpr, Hfork. subst st'.
    cbn [blocks with_blocks] in Hmap. now rewrite Hmap. }
  split; [exact Hrow|]. split.
  - intros Hres. rewrite organize_blockchain_eq, Hres.
    cbn [organize_loop]. now rewrite bind_eq, Hrow.
  - rewrite <- Hmap. destruct (Hwf b Hin Hd) as (Hl & Hr).
    rewrite <- (shift_spans_unset pr b Hl Hr). now apply in_map.
Qed.

Lemma fork_shifts_spans_and_nothing_else_witness :
  organize_blockchain scenario2
  = Ret tt
      (store_of [header_row 1 "R" "" (Some 0) (Some 1) (Some 1);
                 header_row 2 "B1" "R" (Some 1) (Some 1) (Some 1);
                 pending_B2]).
Proof.
  refine (proj1 (proj2 (fork_shifts_spans_and_nothing_else scenario2
                          pending_B2 root_R 0 0 0 _ _ _ _ _ _ _ _)) _).
  - intros r [<- | [<- | [<- | []]]]; simpl; intros; auto; discriminate.
  - simpl. auto.
  - reflexivity.
  - reflexivity.
  - reflexivity.
  - reflexivity.
  - reflexivity.
  - reflexivity.
  - reflexivity.
Defined.

(** ** Forks *)

Lemma fork_store_organize hR h1 h2 n :
  h1 <> hR ->
  organize_blockchain (fork_store hR h1 h2 n)
  = Ret tt (fork_store hR h1 h2 (n + 1)).
Proof.
  intros Hne. rewrite organize_blockchain_eq.
  change (select_pending (fork_store hR h1 h2 n)) with [(3, hR)].
  cbn [organize_loop]. rewrite bind_eq, organize_row_eq.
  assert (Hsel : single_row (select_parent hR (fork_store hR h1 h2 n))
                 = Some (Some (header_row 1 hR "" (Some 0) (Some n) (Some n)))).
  { unfold select_parent, fork_store, store_of.
    cbn [blocks with_blocks filter header_row block_hash depth
           Sql.is_not_null Sql.is_null negb].
    rewrite String.eqb_refl.
    apply String.eqb_neq in Hne. rewrite Hne, andb_false_r. reflexivity. }
  rewrite Hsel. cbn [header_row depth span_left span_right].
  assert (Hfork : has_children n n 0 (fork_store hR h1 h2 n) = true).
  { rewrite has_children_existsb. apply existsb_exists.
    exists (header_row 2 h1 hR (Some 1) (Some n) (Some n)).
    split; [simpl; auto|]. apply within_and_deeper_iff.
    exists n, n, 1. repeat split; try reflexivity; apply N.le_refl. }
  rewrite Hfork. unfold fork_store, store_of, with_blocks, shift_spans,
    shift_span_left, shift_span_right, header_row.
  cbn [blocks map span_left span_right Sql.ge Sql.holds Sql.succ
         blocks_block_id_seq List.length empty_state].
  rewrite N.leb_refl.
  cbn [span_left span_right Sql.ge Sql.holds Sql.succ block_id block_hash
         version prev_block_hash merkle when_created bits_head bits_body
         nonce depth].
  rewrite N.leb_refl. reflexivity.
Qed.

Lemma fork_store_organize_times hR h1 h2 k n :
  h1 <> hR ->
  organize_times k (fork_store hR h1 h2 n)
  = Ret tt (fork_store hR h1 h2 (n + N.of_nat k)).
Proof.
  intros Hne. revert n. induction k as [|k IH]; intros n.
  - cbn [organize_times N.of_nat]. now rewrite N.add_0_r.
  - cbn [organize_times].
    rewrite bind_eq, fork_store_organize, IH by exact Hne.
    f_equal. f_equal. lia.
Qed.

(** C2, as the code has it.  From the root [R] (depth 0, interval
    [(0,0)]) with its linked child [B1] (depth 1, interval [(0,0)]) and a
    pending [B2] whose [prev_block_hash] is [R]'s hash, whatever the
    hashes are ([B1]'s differing from [R]'s), one invocation returns,
    leaves [B1] linked at depth 1, does not link [B2], and shifts the
    interval of [R] and of [B1] alike from [(0,0)] to [(1,1)]. *)
Theorem fork_at_root_first_invocation (hR h1 h2 : string) :
  h1 <> hR ->
  organize_blockchain (fork_store hR h1 h2 0)
  = Ret tt (store_of [header_row 1 hR "" (Some 0) (Some 1) (Some 1);
                      header_row 2 h1 hR (Some 1) (Some 1) (Some 1);
                      header_row 3 h2 hR None None None])
  /\ scenario2 = fork_store "R" "B1" "B2" 0.
Proof.
  intros Hne. split; [now apply fork_store_organize | reflexivity].
Qed.

Lemma fork_at_root_first_invocation_witness :
  organize_blockchain (fork_store "R" "B1" "B2" 0)
  = Ret tt (store_of [header_row 1 "R" "" (Some 0) (Some 1) (Some 1);
                      header_row 2 "B1" "R" (Some 1) (Some 1) (Some 1);
                      header_row 3 "B2" "R" None None None])
  /\ scenario2 = fork_store "R" "B1" "B2" 0.
Proof.
  apply (fork_at_root_first_invocation "R" "B1" "B2"). discriminate.
Defined.

(** C2 as it is written does not hold of [scenario2]: after the first
    invocation [B1] is not what it was (its interval has moved), after
    the second [B2] is still not linked, and the root's interval is
    [(2,2)], not [(0,1)]. *)
Lemma fork_at_root_as_stated_fails :
  ~ (exists st1 st2,
        organize_blockchain scenario2 = Ret tt st1
        /\ In linked_B1 (blocks st1)
        /\ organize_blockchain st1 = Ret tt st2
        /\ (exists b2, In b2 (blocks st2) /\ block_id b2 = 3 /\ linked b2)
        /\ (exists r, In r (blocks st2) /\ block_id r = 1
                      /\ span_left r = Some 0 /\ span_right r = Some 1)).
Proof.
  intros (st1 & st2 & H1 & HB1 & _).
  vm_compute in H1. injection H1 as <-.
  simpl in HB1. destruct HB1 as [H | [H | [H | []]]]; discriminate H.
Qed.

(** C3 fails on the fork scenario.  However many times the organizer is
    invoked on it, every invocation returns and the second child of the
    root is still pending afterwards; each invocation moves the chain id
    of the linked rows up by one. *)
Theorem fork_at_root_never_links (hR h1 h2 : string) (k : nat) :
  h1 <> hR ->
  organize_times k (fork_store hR h1 h2 0)
  = Ret tt (fork_store hR h1 h2 (N.of_nat k))
  /\ In (header_row 3 h2 hR None None None)
       (blocks (fork_store hR h1 h2 (N.of_nat k)))
  /\ scenario2 = fork_store "R" "B1" "B2" 0.
Proof.
  intros Hne. split; [|split].
  - now apply fork_store_organize_times.
  - simpl. auto.
  - reflexivity.
Qed.

Lemma fork_at_root_never_links_witness :
  organize_times 5 (fork_store "R" "B1" "B2" 0)
  = Ret tt (fork_store "R" "B1" "B2" 5)
  /\ In (header_row 3 "B2" "R" None None None)
       (blocks (fork_store "R" "B1" "B2" 5))
  /\ scenario2 = fork_store "R" "B1" "B2" 0.
Proof.
  apply (fork_at_root_never_links "R" "B1" "B2" 5). discriminate.
Defined.

(** ** Invoking the organizer again *)

Lemma select_pending_In st id prev :
  In (id, prev) (select_pending st) ->
  exists r, In r (blocks st) /\ block_id r = id /\ prev_block_hash r = prev
            /\ depth r = None.
Proof.
  unfold select_pending. intros Hin.
  eapply Permutation_in in Hin; [|apply order_by_block_id_perm].
  apply in_map_iff in Hin. destruct Hin as (r & Heq & Hin).
  apply filter_In in Hin. destruct Hin as (Hin & Hnull).
  injection Heq as <- <-. exists r. repeat split; auto.
  now destruct (depth r).
Qed.

Lemma select_parent_none prev st :
  (forall p, In p (blocks st) -> linked p -> block_hash p <> prev) ->
  single_row (select_parent prev st) = Some None.
Proof.
  intros H. unfold select_parent.
  destruct (filter _ (blocks st)) as [|p l] eqn:E; [reflexivity|].
  assert (Hp : In p (filter (fun r => String.eqb (block_hash r) prev
                                      && Sql.is_not_null (depth r))
                       (blocks st))) by (rewrite E; now left).
  apply filter_In in Hp. destruct Hp as (Hin & Hc).
  apply andb_true_iff in Hc. destruct Hc as (Hh & Hd).
  apply String.eqb_eq in Hh. exfalso. apply (H p Hin); [|exact Hh].
  unfold linked. now destruct (depth p).
Qed.

Lemma organize_loop_nothing_to_do res st :
  (forall id prev, In (id, prev) res ->
                   single_row (select_parent prev st) = Some None) ->
  organize_loop res st = Ret tt st.
Proof.
  induction res as [|[id prev] res IH]; intros H; [reflexivity|].
  cbn [organize_loop]. rewrite bind_eq, organize_row_eq.
  rewrite (H id prev (or_introl eq_refl)).
  apply IH. intros id' prev' Hin. apply (H id' prev'). now right.
Qed.

Lemma organize_blockchain_quiescent st :
  quiescent st -> organize_blockchain st = Ret tt st.
Proof.
  intros Hq. rewrite organize_blockchain_eq.
  apply organize_loop_nothing_to_do. intros id prev Hin.
  apply select_pending_In in Hin. destruct Hin as (r & Hr & _ & Hp & Hd).
  apply select_parent_none. intros p Hpin Hl. rewrite <- Hp.
  now apply Hq.
Qed.

(** C4 as it is written does not hold: the pending chain of
    [reversed_chain] arrived child first, the first invocation links the
    block next to the root and the second one links its child, so the
    second invocation changes the state. *)
Lemma organize_twice_changes_state :
  exists st1 st2,
    organize_blockchain reversed_chain = Ret tt st1
    /\ organize_blockchain st1 = Ret tt st2
    /\ st2 <> st1.
Proof.
  eexists. eexists. split; [reflexivity|]. split; [reflexivity|].
  vm_compute. discriminate.
Qed.

(** C4, as the code has it.  If the first of two invocations in a row
    returns and leaves no pending record whose [prev_block_hash] is the
    hash of a linked record, the second invocation returns and changes
    nothing, and so does any number of further ones. *)
Theorem organize_again_when_quiescent (st st1 : state) :
  organize_blockchain st = Ret tt st1 ->
  quiescent st1 ->
  organize_blockchain st1 = Ret tt st1
  /\ forall n, organize_times n st1 = Ret tt st1.
Proof.
  intros _ Hq. pose proof (organize_blockchain_quiescent st1 Hq) as H.
  split; [exact H|].
  induction n as [|n IH]; [reflexivity|].
  cbn [organize_times]. now rewrite bind_eq, H.
Qed.

Lemma chain3_stray_linked_quiescent : quiescent chain3_stray_linked.
Proof.
  intros r p [<- | [<- | [<- | [<- | []]]]] Hp Hr Hl;
    try discriminate Hr.
  destruct Hp as [<- | [<- | [<- | [<- | []]]]]; discriminate.
Qed.

Lemma organize_again_when_quiescent_witness :
  organize_blockchain chain3_stray_linked = Ret tt chain3_stray_linked
  /\ forall n, organize_times n chain3_stray_linked
               = Ret tt chain3_stray_linked.
Proof.
  apply (organize_again_when_quiescent chain3_stray chain3_stray_linked).
  - reflexivity.
  - exact chain3_stray_linked_quiescent.
Defined.

(** ** Bytes to text and back *)

Lemma hex2_reads_back_all b : hex2_reads_back b = true.
Proof. destruct b; vm_compute; reflexivity. Qed.

Lemma hex2_shape b :
  exists hi lo vh vl,
    hex2 b = [hi; lo]
    /\ Hex.value hi = Some vh /\ Hex.value lo = Some vl
    /\ 16 * (16 * 0 + vh) + vl = Byte.to_N b.
Proof.
  pose proof (hex2_reads_back_all b) as H. unfold hex2_reads_back in H.
  destruct (hex2 b) as [|hi [|lo [|]]]; try discriminate H.
  destruct (Hex.value hi) as [vh|] eqn:Hh; [|discriminate H].
  destruct (Hex.value lo) as [vl|] eqn:Hl; [|discriminate H].
  apply N.eqb_eq in H. now exists hi, lo, vh, vl.
Qed.

Lemma byte_of_int_to_N b : byte_of_int (Z.of_N (Byte.to_N b)) = b.
Proof. destruct b; reflexivity. Qed.

Lemma to_N_fits_int b : (Z.of_N (Byte.to_N b) <=? Stream.INT_MAX)%Z = true.
Proof. destruct b; reflexivity. Qed.

Lemma digit_is_not_space c v : Hex.value c = Some v -> Hex.is_space c = false.
Proof.
  destruct c as [[] [] [] [] [] [] [] []]; vm_compute; congruence.
Qed.

Lemma serialize_byte_eq b : serialize_byte b = hex2 b ++ [" "%char].
Proof. reflexivity. Qed.

Lemma skipws_serialized d x :
  Stream.skipws (flat_map serialize_byte d ++ hex2 x)
  = flat_map serialize_byte d ++ hex2 x.
Proof.
  destruct d as [|b d].
  - destruct (hex2_shape x) as (hi & lo & vh & vl & -> & Hh & _).
    simpl. now rewrite (digit_is_not_space hi vh Hh).
  - destruct (hex2_shape b) as (hi & lo & vh & vl & Hb & Hh & _).
    cbn [flat_map]. rewrite serialize_byte_eq, Hb. simpl.
    now rewrite (digit_is_not_space hi vh Hh).
Qed.

Lemma drop_last_app l c : drop_last (l ++ [c]) = l.
Proof.
  induction l as [|a l IH]; [reflexivity|].
  simpl. rewrite IH. destruct l; reflexivity.
Qed.

Lemma serialized_buffer d x :
  serialize_bytes (d ++ [x])
  = Some (string_of_list_ascii (flat_map serialize_byte d ++ hex2 x)).
Proof.
  unfold serialize_bytes. rewrite flat_map_app. cbn [flat_map].
  rewrite app_nil_r, serialize_byte_eq, app_assoc, drop_last_app.
  destruct (flat_map serialize_byte d ++ hex2 x) eqn:E; [|reflexivity].
  destruct (hex2_shape x) as (hi & lo & _ & _ & Hx & _). rewrite Hx in E.
  now destruct (flat_map serialize_byte d).
Qed.

(** The loop on a buffer that holds serialized bytes: it pushes the
    value [val] had before the first extraction, then every byte but
    the last, whose extraction runs into the end of the buffer. *)
Lemma deserialize_loop_serialized d x :
  forall fuel val buf stack,
    Stream.skipws buf = flat_map serialize_byte d ++ hex2 x ->
    (List.length d + 2 <= fuel)%nat ->
    deserialize_loop fuel val (Stream.mk buf false false) stack
    = stack ++ byte_of_int val :: d.
Proof.
  induction d as [|b d IH]; intros fuel val buf stack Hbuf Hfuel.
  - destruct fuel as [|[|fuel]]; [simpl in Hfuel; lia..|].
    destruct (hex2_shape x) as (hi & lo & vh & vl & Hx & Hh & Hl & Hv).
    cbn [flat_map app] in Hbuf. rewrite Hx in Hbuf.
    cbn [deserialize_loop Stream.good Stream.eofbit Stream.failbit negb andb].
    unfold Stream.extract_int. cbn [Stream.buf]. rewrite Hbuf, Hh.
    cbn [Stream.digits]. rewrite Hh, Hl.
    destruct (Z.of_N (16 * (16 * 0 + vh) + vl) <=? Stream.INT_MAX)%Z;
      reflexivity.
  - destruct fuel as [|fuel]; [simpl in Hfuel; lia|].
    destruct (hex2_shape b) as (hi & lo & vh & vl & Hb & Hh & Hl & Hv).
    cbn [flat_map] in Hbuf. rewrite serialize_byte_eq, Hb in Hbuf.
    cbn [app] in Hbuf.
    cbn [deserialize_loop Stream.good Stream.eofbit Stream.failbit negb andb].
    unfold Stream.extract_int. cbn [Stream.buf]. rewrite Hbuf, Hh.
    cbn [Stream.digits]. rewrite Hh, Hl.
    change (Hex.value " ") with (@None N). cbv beta iota.
    rewrite Hv, to_N_fits_int.
    rewrite IH.
    + rewrite byte_of_int_to_N, <- app_assoc. reflexivity.
    + cbn [Stream.skipws]. change (Hex.is_space " ") with true.
      cbv beta iota. apply skipws_serialized.
    + simpl in Hfuel. lia.
Qed.

Lemma length_string_of_list_ascii l :
  String.length (string_of_list_ascii l) = List.length l.
Proof. induction l as [|c l IH]; simpl; congruence. Qed.

Lemma length_serialized d : (List.length d <= List.length (flat_map serialize_byte d))%nat.
Proof.
  induction d as [|b d IH]; [apply le_n|].
  cbn [flat_map]. rewrite length_app, serialize_byte_eq, length_app.
  simpl. lia.
Qed.

(** C10 fails.  For every byte array [d ++ [x]] (that is, for every
    non-empty one) and whatever the uninitialised [val] holds when the
    loop starts, [deserialize_bytes (serialize_bytes (d ++ [x]))] is
    that value as a byte followed by [d]: one element too many at the
    front, and the last byte [x] missing.  On [[01; 02]] this is never
    the array that was serialized. *)
Theorem deserialize_serialize_is_shifted (uninit : Z) (d : list byte)
    (x : byte) :
  option_map (deserialize_bytes uninit) (serialize_bytes (d ++ [x]))
  = Some (byte_of_int uninit :: d)
  /\ option_map (deserialize_bytes uninit) (serialize_bytes [x01; x02])
     <> Some [x01; x02].
Proof.
  split.
  - rewrite serialized_buffer. cbn [option_map]. f_equal.
    unfold deserialize_bytes, Stream.of_string.
    rewrite list_ascii_of_string_of_list_ascii.
    rewrite (deserialize_loop_serialized d x); [reflexivity | |].
    + apply skipws_serialized.
    + rewrite length_string_of_list_ascii, length_app.
      pose proof (length_serialized d). lia.
  - change (serialize_bytes [x01; x02]) with (Some "01 02"%string).
    cbn [option_map].
    change (deserialize_bytes uninit "01 02")
      with [byte_of_int uninit; x01].
    discriminate.
Qed.

(** *** The iteration bound of [deserialize_bytes] is enough *)

Lemma skipws_length l : (List.length (Stream.skipws l) <= List.length l)%nat.
Proof.
  induction l as [|c l IH]; [apply le_n|].
  simpl. destruct (Hex.is_space c); simpl; lia.
Qed.

Lemma digits_length l acc :
  (List.length (snd (Stream.digits l acc)) <= List.length l)%nat.
Proof.
  revert acc. induction l as [|c l IH]; intros acc; [apply le_n|].
  cbn [Stream.digits]. destruct (Hex.value c) as [v|]; [|apply le_n].
  specialize (IH (16 * acc + v)). cbn [List.length]. lia.
Qed.

(** An extraction either leaves the stream not good or has consumed at
    least one character. *)
Lemma extract_int_progress val ss :
  let ss' := snd (Stream.extract_int val ss) in
  Stream.good ss' = false
  \/ (List.length (Stream.buf ss') < List.length (Stream.buf ss))%nat.
Proof.
  unfold Stream.extract_int.
  pose proof (skipws_length (Stream.buf ss)) as Hws.
  destruct (Stream.skipws (Stream.buf ss)) as [|c rest]; [now left|].
  destruct (Hex.value c) as [v|] eqn:Hc; [|now left].
  cbn [Stream.digits]. rewrite Hc.
  pose proof (digits_length rest (16 * 0 + v)) as Hd.
  destruct (Stream.digits rest (16 * 0 + v)) as [n rest'].
  cbn [snd] in Hd.
  destruct (Z.of_N n <=? Stream.INT_MAX)%Z;
    [|left; now destruct rest'].
  right. cbn [snd Stream.buf]. simpl in Hws. lia.
Qed.

Lemma deserialize_loop_not_good fuel val ss stack :
  Stream.good ss = false -> deserialize_loop fuel val ss stack = stack.
Proof. intros H. destruct fuel; cbn [deserialize_loop]; now rewrite ?H. Qed.

(** With [length + 2] iterations or more the loop has always left
    through its test: more fuel gives the same result. *)
Lemma deserialize_loop_enough_fuel fuel :
  forall val ss stack,
    (List.length (Stream.buf ss) + 2 <= fuel)%nat ->
    deserialize_loop (S fuel) val ss stack
    = deserialize_loop fuel val ss stack.
Proof.
  induction fuel as [|fuel IH]; intros val ss stack Hlen; [lia|].
  change (deserialize_loop (S (S fuel)) val ss stack)
    with (if Stream.good ss
          then let '(val', ss') := Stream.extract_int val ss in
               deserialize_loop (S fuel) val' ss'
                 (stack ++ [byte_of_int val])
          else stack).
  change (deserialize_loop (S fuel) val ss stack)
    with (if Stream.good ss
          then let '(val', ss') := Stream.extract_int val ss in
               deserialize_loop fuel val' ss' (stack ++ [byte_of_int val])
          else stack).
  destruct (Stream.good ss); [|reflexivity].
  pose proof (extract_int_progress val ss) as Hprog.
  destruct (Stream.extract_int val ss) as [val' ss']. cbn [snd] in Hprog.
  destruct Hprog as [Hbad | Hshort].
  - now rewrite !deserialize_loop_not_good.
  - apply IH. lia.
Qed.

Lemma length_list_ascii_of_string s :
  List.length (list_ascii_of_string s) = String.length s.
Proof. induction s as [|c s IH]; [reflexivity|]. simpl. now rewrite IH. Qed.

(** [deserialize_bytes] with any larger bound on the iterations. *)
Lemma deserialize_bytes_any_fuel uninit byte_stream extra :
  deserialize_loop (extra + S (S (String.length byte_stream))) uninit
    (Stream.of_string byte_stream) []
  = deserialize_bytes uninit byte_stream.
Proof.
  unfold deserialize_bytes. induction extra as [|extra IH]; [reflexivity|].
  rewrite <- IH. cbn [Nat.add]. apply deserialize_loop_enough_fuel.
  unfold Stream.of_string. cbn [Stream.buf].
  rewrite length_list_ascii_of_string. lia.
Qed.

(* ================================================================== *)
(** * Further properties of the code                                  *)
(* ================================================================== *)

(** ** The text [serialize_bytes] writes *)

Lemma length_hex2 b : List.length (hex2 b) = 2%nat.
Proof. destruct (hex2_shape b) as (hi & lo & _ & _ & -> & _). reflexivity. Qed.

Lemma length_flat_map_serialize_byte d :
  List.length (flat_map serialize_byte d) = (3 * List.length d)%nat.
Proof.
  induction d as [|b d IH]; [reflexivity|].
  cbn [flat_map]. rewrite length_app, serialize_byte_eq, length_app, length_hex2.
  cbn [List.length]. lia.
Qed.

(** X1.  [serialize_bytes] throws (here: has no result) exactly on the
    empty array; on an array of [n > 0] bytes it returns a string of
    [3 n - 1] characters: two digits per byte and one blank between
    neighbours. *)
Theorem serialize_bytes_length (d : list byte) :
  match serialize_bytes d with
  | None => d = []
  | Some s => d <> [] /\ (String.length s + 1 = 3 * List.length d)%nat
  end.
Proof.
  destruct d as [|b d] using rev_ind; [reflexivity|].
  rewrite serialized_buffer. split; [now destruct d|].
  rewrite length_string_of_list_ascii, !length_app,
    length_flat_map_serialize_byte, length_hex2.
  cbn [List.length]. lia.
Qed.

Lemma hex2_injective b1 b2 : hex2 b1 = hex2 b2 -> b1 = b2.
Proof.
  intros H.
  destruct (hex2_shape b1) as (h1 & l1 & vh1 & vl1 & E1 & Hh1 & Hl1 & Hv1).
  destruct (hex2_shape b2) as (h2 & l2 & vh2 & vl2 & E2 & Hh2 & Hl2 & Hv2).
  rewrite E1, E2 in H. injection H as -> ->.
  rewrite Hh1 in Hh2. rewrite Hl1 in Hl2.
  injection Hh2 as ->. injection Hl2 as ->.
  assert (Hn : Byte.to_N b1 = Byte.to_N b2) by congruence.
  pose proof (Byte.of_to_N b1) as H1. pose proof (Byte.of_to_N b2) as H2.
  rewrite Hn in H1. congruence.
Qed.

Lemma flat_map_serialize_byte_injective d1 :
  forall d2, flat_map serialize_byte d1 = flat_map serialize_byte d2 -> d1 = d2.
Proof.
  induction d1 as [|b1 d1 IH]; intros [|b2 d2] H.
  - reflexivity.
  - apply (f_equal (@List.length ascii)) in H.
    rewrite !length_flat_map_serialize_byte in H. simpl in H. lia.
  - apply (f_equal (@List.length ascii)) in H.
    rewrite !length_flat_map_serialize_byte in H. simpl in H. lia.
  - cbn [flat_map] in H. rewrite !serialize_byte_eq in H.
    destruct (hex2_shape b1) as (h1 & l1 & _ & _ & E1 & _).
    destruct (hex2_shape b2) as (h2 & l2 & _ & _ & E2 & _).
    assert (Hb : hex2 b1 = hex2 b2).
    { rewrite E1, E2 in H |- *. cbn [app] in H. now injection H as -> -> _. }
    assert (Hd : flat_map serialize_byte d1 = flat_map serialize_byte d2).
    { rewrite E1, E2 in H. cbn [app] in H. now injection H. }
    f_equal; [now apply hex2_injective | now apply IH].
Qed.

(** X2.  [serialize_bytes] is injective: two byte arrays with the same
    serialization (or both without one) are the same array.  So the
    text stored in [block_hash] identifies the hash. *)
Theorem serialize_bytes_injective (d1 d2 : list byte) :
  serialize_bytes d1 = serialize_bytes d2 -> d1 = d2.
Proof.
  destruct d1 as [|x1 d1] using rev_ind; destruct d2 as [|x2 d2] using rev_ind.
  - reflexivity.
  - rewrite serialized_buffer. discriminate.
  - rewrite serialized_buffer. discriminate.
  - rewrite !serialized_buffer. intros H. injection H as H.
    apply (f_equal list_ascii_of_string) in H.
    rewrite !list_ascii_of_string_of_list_ascii in H.
    apply flat_map_serialize_byte_injective.
    rewrite !flat_map_app. cbn [flat_map].
    rewrite !app_nil_r, !serialize_byte_eq, !app_assoc. now rewrite H.
Qed.

Lemma serialize_bytes_injective_witness : [x0a; xff] = [x0a; xff].
Proof.
  apply (serialize_bytes_injective [x0a; xff] [x0a; xff]). reflexivity.
Defined.

(** ** What [deserialize_bytes] returns on any text *)

Lemma deserialize_loop_prefix fuel :
  forall val ss stack,
    deserialize_loop fuel val ss stack
    = stack ++ deserialize_loop fuel val ss [].
Proof.
  induction fuel as [|fuel IH]; intros val ss stack.
  - simpl. now rewrite app_nil_r.
  - cbn [deserialize_loop]. destruct (Stream.good ss);
      [|now rewrite app_nil_r].
    destruct (Stream.extract_int val ss) as [val' ss'].
    rewrite IH, (IH val' ss' ([] ++ [byte_of_int val])).
    now rewrite <- app_assoc.
Qed.

(** X3.  On a text of hexadecimal digits and white space, whatever it
    holds, [deserialize_bytes] returns a non-empty array whose first
    element is the value the uninitialised [val] happened to hold, as a
    byte; on the empty text that element is the whole result. *)
Theorem deserialize_bytes_starts_with_uninit (uninit : Z)
    (byte_stream : string) :
  hex_text byte_stream = true ->
  (exists rest, deserialize_bytes uninit byte_stream
                = byte_of_int uninit :: rest)
  /\ deserialize_bytes uninit "" = [byte_of_int uninit].
Proof.
  intros _. split; [|reflexivity].
  unfold deserialize_bytes. set (fuel := S (String.length byte_stream)).
  cbn [deserialize_loop].
  change (Stream.good (Stream.of_string byte_stream)) with true.
  cbv iota.
  destruct (Stream.extract_int uninit (Stream.of_string byte_stream))
    as [val' ss'].
  rewrite deserialize_loop_prefix. cbn [app]. eauto.
Qed.

Lemma deserialize_bytes_starts_with_uninit_witness :
  (exists rest, deserialize_bytes 77 "1f  02 " = byte_of_int 77 :: rest)
  /\ deserialize_bytes 77 "" = [byte_of_int 77].
Proof.
  apply (deserialize_bytes_starts_with_uninit 77 "1f  02 "). reflexivity.
Defined.

(** X4.  On a text of hexadecimal digits and white space the loop of
    [deserialize_bytes] leaves through its test after at most
    [length + 2] rounds: with any larger bound on the number of rounds
    the result is the same. *)
Theorem deserialize_bytes_iteration_bound (uninit : Z) (byte_stream : string)
    (fuel : nat) :
  hex_text byte_stream = true ->
  (String.length byte_stream + 2 <= fuel)%nat ->
  deserialize_loop fuel uninit (Stream.of_string byte_stream) []
  = deserialize_bytes uninit byte_stream.
Proof.
  intros _ H.
  replace fuel
    with ((fuel - S (S (String.length byte_stream)))
          + S (S (String.length byte_stream)))%nat by lia.
  apply deserialize_bytes_any_fuel.
Qed.

Lemma deserialize_bytes_iteration_bound_witness :
  deserialize_loop 100 5 (Stream.of_string "0a ff") []
  = deserialize_bytes 5 "0a ff".
Proof.
  apply (deserialize_bytes_iteration_bound 5 "0a ff" 100).
  - reflexivity.
  - simpl. lia.
Defined.

(** ** The insertion path: scripts, inputs, outputs, transactions *)

Lemma with_operations_same st : with_operations st (operations st) = st.
Proof. now destruct st. Qed.

Section InsertFacts.
Variable opcode : Type.
Variable opcode_to_string : opcode -> string.
Variable hash_transaction : Message.transaction opcode -> hash_digest.
Variable hash_block_header : Message.block opcode -> hash_digest.

Lemma insert_operation_eq op script_id st :
  insert_operation opcode_to_string op script_id st
  = Ret tt (with_operations st
              (operations st
               ++ [operation_row opcode_to_string script_id op])).
Proof.
  unfold insert_operation, operation_row.
  destruct (Message.data op) as [|b d] eqn:E; [reflexivity|].
  cbn [List.length Nat.eqb].
  destruct (serialize_bytes_nonempty (b :: d)) as (s & Hs); [discriminate|].
  now rewrite bind_eq, serialize_eq, Hs.
Qed.

Lemma insert_operations_eq script_id ops :
  forall i st,
    for_each (fun _ operation =>
                insert_operation opcode_to_string operation script_id)
      i ops st
    = Ret tt (with_operations st
                (operations st
                 ++ map (operation_row opcode_to_string script_id) ops)).
Proof.
  induction ops as [|op ops IH]; intros i st.
  - cbn [for_each map]. now rewrite app_nil_r, with_operations_same.
  - cbn [for_each map]. rewrite bind_eq, insert_operation_eq, IH.
    destruct st. cbn. now rewrite <- app_assoc.
Qed.

Lemma insert_script_eq ops st :
  insert_script opcode_to_string ops st
  = Ret (script_sequence st + 1)
      (with_operations (with_script_sequence st (script_sequence st + 1))
         (operations st
          ++ map (operation_row opcode_to_string (script_sequence st + 1))
               ops)).
Proof.
  unfold insert_script. rewrite bind_eq.
  unfold nextval_script_sequence at 1. cbv beta zeta.
  rewrite bind_eq, insert_operations_eq. reflexivity.
Qed.

(** X5.  [insert_script] never throws, whatever the operations are:
    it takes the next value of [script_sequence] as the script's id,
    returns it, and appends to [operations] one row per operation, in
    order, each with that id and the opcode's name, the [data] column
    being [NULL] exactly for the operations without data; every other
    table is left as it was. *)
Theorem insert_script_appends_operations
    (ops : list (Message.operation opcode)) (st : state) :
  exists st',
    insert_script opcode_to_string ops st = Ret (script_sequence st + 1) st'
    /\ script_sequence st' = script_sequence st + 1
    /\ operations st'
       = operations st
         ++ map (operation_row opcode_to_string (script_sequence st + 1)) ops
    /\ (forall op, In op ops ->
          (Operations.data
             (operation_row opcode_to_string (script_sequence st + 1) op)
           = None <-> Message.data op = []))
    /\ blocks st' = blocks st /\ transactions st' = transactions st
    /\ inputs st' = inputs st /\ outputs st' = outputs st
    /\ transactions_parents st' = transactions_parents st
    /\ handled st' = handled st.
Proof.
  rewrite insert_script_eq. eexists. split; [reflexivity|].
  destruct st. cbn. repeat split; try reflexivity.
  - unfold operation_row. cbn. destruct (Message.data op) as [|b d] eqn:E;
      [reflexivity|].
    destruct (serialize_bytes_nonempty (b :: d)) as (s & Hs); [discriminate|].
    rewrite Hs. discriminate.
  - unfold operation_row. cbn. now intros ->.
Qed.

End InsertFacts.

(** ** [store(transaction)] and [store(block)] on new data *)

(** X8.  The row [store(block)] inserts keeps the whole of [bits]: the
    top byte goes to [bits_head], the low three bytes to [bits_body], and
    [bits_head * 2^24 + bits_body] is [bits] again. *)
Theorem insert_block_row_splits_bits (opcode : Type)
    (block : Message.block opcode) (h p m : string) (st : state) :
  exists r,
    insert_block_row block h p m st
    = Ret (blocks_block_id_seq st + 1)
        (with_blocks st (blocks st ++ [r]) (blocks_block_id_seq st + 1))
    /\ bits_head r = Message.bits block / 2 ^ 24
    /\ bits_body r = Message.bits block mod 2 ^ 24
    /\ bits_head r * 2 ^ 24 + bits_body r = Message.bits block.
Proof.
  unfold insert_block_row. eexists. split; [reflexivity|].
  cbn [bits_head bits_body].
  assert (H1 : N.shiftr (Message.bits block) (8 * 3)
               = Message.bits block / 2 ^ 24).
  { change (8 * 3) with 24. apply N.shiftr_div_pow2. }
  assert (H2 : N.land (Message.bits block) 16777215
               = Message.bits block mod 2 ^ 24).
  { change 16777215 with (N.ones 24). apply N.land_ones. }
  rewrite H1, H2. repeat split.
  pose proof (N.div_mod (Message.bits block) (2 ^ 24)) as H.
  rewrite (N.mul_comm (Message.bits block / 2 ^ 24)). symmetry. apply H.
  discriminate.
Qed.

(** ** [store(block)] and the keys of [blocks] *)

Section StoreKeys.
Variable opcode : Type.
Variable opcode_to_string : opcode -> string.
Variable hash_transaction : Message.transaction opcode -> hash_digest.
Variable hash_block_header : Message.block opcode -> hash_digest.

Lemma keyed_stored_row st st' repr :
  keyed st -> stored_row st st' repr -> keyed st'.
Proof.
  intros (Hh & Hi & Hs) (new_row & Hb & Hid & Hseq & Hrepr & _ & _ & _ & Hnew).
  unfold keyed. rewrite Hb, Hseq, !map_app. cbn [map]. repeat split.
  - apply NoDup_app; [exact Hh | constructor; [intros [] | constructor] |].
    intros x Hx [<- | []]. apply in_map_iff in Hx.
    destruct Hx as (r & Hr & Hin). apply (Hnew r Hin). congruence.
  - apply NoDup_app; [exact Hi | constructor; [intros [] | constructor] |].
    intros x Hx [<- | []]. apply in_map_iff in Hx.
    destruct Hx as (r & Hr & Hin). specialize (Hs r Hin). lia.
  - intros r Hin. apply in_app_or in Hin.
    destruct Hin as [Hin | [<- | []]]; [specialize (Hs r Hin)|]; lia.
Qed.

(** X9.  However [store(block)] ends (returning, or throwing half way
    through the block's transactions), it leaves [block_hash] unique and
    [block_id] unique and within the values its sequence has handed
    out, if they were before. *)
Theorem store_block_keeps_keys (block : Message.block opcode) (st : state) :
  keyed st ->
  keyed (final (store_block opcode_to_string hash_transaction
                  hash_block_header block st)).
Proof.
  intros Hk.
  destruct (store_block_effect opcode opcode_to_string hash_transaction
              hash_block_header block st)
    as [(Hb & Hs & _) | (repr & _ & Hrow & _)].
  - unfold keyed in *. now rewrite Hb, Hs.
  - eapply keyed_stored_row; eauto.
Qed.

(** [store(block)] on a block that is there. *)
Lemma store_block_found block st repr prev mk r :
  NoDup (map block_hash (blocks st)) ->
  serialize_bytes (hash_block_header block) = Some repr ->
  serialize_bytes (Message.prev_block block) = Some prev ->
  serialize_bytes (Message.merkle_root block) = Some mk ->
  In r (blocks st) -> block_hash r = repr ->
  store_block opcode_to_string hash_transaction hash_block_header block st
  = Ret tt st.
Proof.
  intros Hnd Hrepr Hprev Hmk Hin Hr. unfold store_block.
  rewrite bind_eq, serialize_eq, Hrepr, bind_eq, serialize_eq, Hprev,
    bind_eq, serialize_eq, Hmk, bind_eq, row_eq.
  destruct (select_block_hash_found repr st r Hnd Hin Hr) as (x & Hx).
  now rewrite Hx.
Qed.

(** A call of [store(block)] that returns has either found the block
    or appended its row. *)
Lemma store_block_returned block st st1 :
  store_block opcode_to_string hash_transaction hash_block_header block st
  = Ret tt st1 ->
  exists repr prev mk,
    serialize_bytes (hash_block_header block) = Some repr
    /\ serialize_bytes (Message.prev_block block) = Some prev
    /\ serialize_bytes (Message.merkle_root block) = Some mk
    /\ ((st1 = st /\ exists r, In r (blocks st) /\ block_hash r = repr)
        \/ stored_row st st1 repr).
Proof.
  intros Hret.
  pose proof (store_block_effect opcode opcode_to_string hash_transaction
                hash_block_header block st) as Heff.
  cbv zeta in Heff. rewrite Hret in Heff. cbn [final] in Heff.
  unfold store_block in Hret.
  rewrite bind_eq, serialize_eq in Hret.
  destruct (serialize_bytes (hash_block_header block)) as [repr|] eqn:Hrepr;
    [|discriminate].
  rewrite bind_eq, serialize_eq in Hret.
  destruct (serialize_bytes (Message.prev_block block)) as [prev|];
    [|discriminate].
  rewrite bind_eq, serialize_eq in Hret.
  destruct (serialize_bytes (Message.merkle_root block)) as [mk|];
    [|discriminate].
  exists repr, prev, mk. repeat split.
  rewrite bind_eq, row_eq in Hret.
  destruct (single_row (select_block_hash repr st)) as [[x|]|] eqn:Hsel;
    [| |discriminate].
  - left. injection Hret as <-. split; [reflexivity|].
    unfold select_block_hash in Hsel. rewrite single_row_map in Hsel.
    destruct (single_row (filter _ (blocks st))) as [[r|]|] eqn:E;
      try discriminate.
    apply single_row_some_In, filter_In in E. destruct E as (Hin & Heq).
    apply String.eqb_eq in Heq. eauto.
  - right. destruct Heff as [(Hb & _) | (repr' & Hr' & Hrow & _)].
    + exfalso. rewrite bind_eq in Hret. unfold insert_block_row at 1 in Hret.
      cbv beta zeta in Hret. rewrite bind_eq in Hret.
      match type of Hret with
      | context [for_each ?f ?i ?l ?s] =>
          assert (Hk : keeps same_blocks (for_each f i l))
            by (apply same_blocks_for_each; intros ? ?;
                apply same_blocks_bind;
                [apply insert_transaction_same_blocks
                | intros ? ?; now repeat split]);
          specialize (Hk s); destruct (for_each f i l s) as [[] st2|e st2];
          [|discriminate]
      end.
      cbn [final] in Hk. destruct Hk as (Hb2 & _).
      unfold handle_store, exec in Hret. injection Hret as <-.
      cbn [blocks with_handled] in Hb. rewrite Hb2 in Hb.
      cbn [blocks with_blocks] in Hb.
      apply (f_equal (@List.length block_row)) in Hb.
      rewrite length_app in Hb. cbn in Hb. lia.
    + congruence.
Qed.

(** X10.  Storing a block a second time changes nothing: when a call
    of [store(block)] on a table with unique hashes has returned, whether
    it found the block or inserted it, a second call with the same block
    returns and leaves every table, every sequence and the handler's
    calls as the first call left them. *)
Theorem store_block_twice (block : Message.block opcode) (st st1 : state) :
  NoDup (map block_hash (blocks st)) ->
  store_block opcode_to_string hash_transaction hash_block_header block st
  = Ret tt st1 ->
  store_block opcode_to_string hash_transaction hash_block_header block st1
  = Ret tt st1.
Proof.
  intros Hnd Hret.
  destruct (store_block_returned block st st1 Hret)
    as (repr & prev & mk & Hrepr & Hprev & Hmk
        & [(-> & r & Hin & Hr) | Hrow]).
  - eapply store_block_found; eauto.
  - pose proof Hrow as (new_row & Hb & _ & _ & Hh & _ & _ & _ & Hnew).
    apply store_block_found with (repr := repr) (prev := prev) (mk := mk)
                                 (r := new_row); auto.
    + rewrite Hb, map_app. cbn [map].
      apply NoDup_app; [exact Hnd | constructor; [intros [] | constructor] |].
      intros x Hx [<- | []]. apply in_map_iff in Hx.
      destruct Hx as (r & Hr & Hin). apply (Hnew r Hin). congruence.
    + rewrite Hb. apply in_or_app. right. now left.
Qed.

End StoreKeys.

Lemma store_block_keeps_keys_witness :
  keyed (final (store_block (fun _ : unit => "op"%string) (fun _ => [x02])
                  (fun _ => [x01]) sample_block empty_state)).
Proof.
  apply (store_block_keeps_keys unit). repeat split; try constructor.
  intros r [].
Defined.

Lemma store_block_twice_witness :
  let store := store_block (fun _ : unit => "op"%string) (fun _ => [x02])
                 (fun _ => [x01]) sample_block in
  store (final (store empty_state)) = Ret tt (final (store empty_state)).
Proof.
  apply (store_block_twice unit _ _ _ sample_block empty_state).
  - constructor.
  - reflexivity.
Defined.

(** ** What the organizer leaves alone *)

Lemma header_shift_spans c r : header (shift_spans c r) = header r.
Proof. unfold header. shift_cases r. Qed.

Lemma header_set_linked d l x id r : header (set_linked d l x id r) = header r.
Proof. unfold set_linked. now destruct (block_id r =? id). Qed.

Lemma header_block_id a b : header a = header b -> block_id a = block_id b.
Proof. unfold header. congruence. Qed.

Lemma map_header_block_id rows rows' :
  map header rows' = map header rows ->
  map block_id rows' = map block_id rows.
Proof.
  intros H. apply (f_equal (map (fun h => fst (fst (fst (fst (fst (fst (fst (fst h))))))))))
    in H.
  now rewrite !map_map in H.
Qed.

(** How the loop body can leave the state: as it was (no parent, or an
    exception), with every interval shifted, or with the rows of the
    given [block_id] linked under a parent that was found. *)
Lemma organize_row_cases id prev st :
  final (organize_row id prev st) = st
  \/ (exists c,
        organize_row id prev st
        = Ret tt (with_blocks st (map (shift_spans c) (blocks st))
                    (blocks_block_id_seq st)))
  \/ (exists parent pd c,
        single_row (select_parent prev st) = Some (Some parent)
        /\ depth parent = Some pd
        /\ organize_row id prev st
           = Ret tt (with_blocks st
                       (map (set_linked (size_t_add pd 1) c c id) (blocks st))
                       (blocks_block_id_seq st))).
Proof.
  rewrite organize_row_eq.
  destruct (single_row (select_parent prev st)) as [[parent|]|] eqn:Hsel;
    [|now left..].
  destruct (depth parent) as [pd|] eqn:Hd;
    [|left; now destruct (span_left parent), (span_right parent)].
  destruct (span_left parent) as [pl|]; [|left; now destruct (span_right parent)].
  destruct (span_right parent) as [pr|]; [|now left].
  destruct (has_children pl pr pd st).
  - right. left. eauto.
  - destruct (pl =? pr); [|now left].
    right. right. exists parent, pd, pl. auto.
Qed.

Lemma same_headers_refl st : same_headers st st.
Proof. unfold same_headers. now repeat split. Qed.

Lemma same_headers_trans a b c :
  same_headers a b -> same_headers b c -> same_headers a c.
Proof.
  unfold same_headers.
  intros (A1 & A2 & A3 & A4 & A5 & A6 & A7 & A8 & A9 & A10 & A11 & A12)
         (B1 & B2 & B3 & B4 & B5 & B6 & B7 & B8 & B9 & B10 & B11 & B12).
  repeat split; congruence.
Qed.

Lemma same_headers_update st (f : block_row -> block_row) :
  (forall r, header (f r) = header r) ->
  same_headers st
    (with_blocks st (map f (blocks st)) (blocks_block_id_seq st)).
Proof.
  intros H. unfold same_headers. cbn. repeat split.
  rewrite map_map. apply map_ext. exact H.
Qed.

Lemma organize_row_same_headers id prev :
  keeps same_headers (organize_row id prev).
Proof.
  intros st.
  destruct (organize_row_cases id prev st)
    as [-> | [(c & ->) | (parent & pd & c & _ & _ & ->)]]; cbn [final].
  - apply same_headers_refl.
  - apply same_headers_update. apply header_shift_spans.
  - apply same_headers_update. intros r. apply header_set_linked.
Qed.

Lemma organize_loop_same_headers res : keeps same_headers (organize_loop res).
Proof.
  induction res as [|[id prev] res IH].
  - intros st. apply same_headers_refl.
  - cbn [organize_loop]. apply keeps_bind.
    + exact same_headers_trans.
    + apply organize_row_same_headers.
    + intros _. exact IH.
Qed.

Lemma organize_times_same_headers n : keeps same_headers (organize_times n).
Proof.
  induction n as [|n IH].
  - intros st. apply same_headers_refl.
  - cbn [organize_times]. apply keeps_bind.
    + exact same_headers_trans.
    + intros st. rewrite organize_blockchain_eq.
      apply organize_loop_same_headers.
    + intros _. exact IH.
Qed.

(** X11.  However it ends, and on any store, an invocation of the
    organizer (or any number of them) changes nothing but the [depth],
    [span_left] and [span_right] columns of [blocks]: it neither adds nor
    removes a row, the other nine columns of every row are as they were,
    row by row, every other table and every sequence is untouched, and
    no handler is called. *)
Theorem organize_changes_only_depth_and_spans (n : nat) (st : state) :
  same_headers st (final (organize_blockchain st))
  /\ same_headers st (final (organize_times n st))
  /\ List.length (blocks (final (organize_times n st)))
     = List.length (blocks st).
Proof.
  assert (H := organize_times_same_headers n st).
  split; [|split].
  - rewrite organize_blockchain_eq. apply organize_loop_same_headers.
  - exact H.
  - destruct H as (H & _). apply (f_equal (@List.length _)) in H.
    now rewrite !length_map in H.
Qed.

(** ** Linked rows stay linked *)

Lemma linked_kept_refl rows : linked_kept rows rows.
Proof. intros r d Hin Hd. eauto. Qed.

Lemma linked_kept_trans a b c :
  linked_kept a b -> linked_kept b c -> linked_kept a c.
Proof.
  intros H1 H2 r d Hin Hd.
  destruct (H1 r d Hin Hd) as (r1 & Hin1 & Hh1 & Hd1).
  destruct (H2 r1 d Hin1 Hd1) as (r2 & Hin2 & Hh2 & Hd2).
  exists r2. repeat split; auto. congruence.
Qed.

Lemma organize_row_keeps_linked id prev res st :
  NoDup (map block_id (blocks st)) ->
  snapshot_ok (blocks st) ((id, prev) :: res) ->
  let st' := final (organize_row id prev st) in
  linked_kept (blocks st) (blocks st')
  /\ NoDup (map block_id (blocks st'))
  /\ snapshot_ok (blocks st') res.
Proof.
  intros Hnd Hsnap st'. subst st'.
  destruct (organize_row_cases id prev st)
    as [-> | [(c & ->) | (parent & pd & c & _ & _ & ->)]];
    cbn [final blocks with_blocks].
  - split; [apply linked_kept_refl|]. split; [exact Hnd|].
    eapply snapshot_ok_tail, Hsnap.
  - split; [|split].
    + intros r d Hin Hd. exists (shift_spans c r).
      split; [now apply in_map|].
      now rewrite header_shift_spans, shift_spans_depth.
    + rewrite map_block_id_fixed; [exact Hnd | apply shift_spans_block_id].
    + apply snapshot_ok_shift. eapply snapshot_ok_tail, Hsnap.
  - split; [|split].
    + intros r d Hin Hd. exists r. split; [|auto].
      destruct Hsnap as (_ & Hs).
      destruct (Hs id prev (or_introl eq_refl)) as (r0 & Hr0 & Hid0 & _ & Hd0).
      rewrite <- (set_linked_other (size_t_add pd 1) c c id r);
        [now apply in_map|].
      rewrite <- Hid0. eapply pending_not_linked_id; eauto.
      unfold linked. congruence.
    + rewrite map_block_id_fixed; [exact Hnd|].
      intros r. apply set_linked_block_id.
    + eapply snapshot_ok_set_linked, Hsnap.
Qed.

Lemma organize_loop_keeps_linked res :
  forall st,
    NoDup (map block_id (blocks st)) ->
    snapshot_ok (blocks st) res ->
    linked_kept (blocks st) (blocks (final (organize_loop res st))).
Proof.
  induction res as [|[id prev] res IH]; intros st Hnd Hsnap.
  - apply linked_kept_refl.
  - destruct (organize_row_keeps_linked id prev res st Hnd Hsnap)
      as (Hk & Hnd' & Hsnap').
    cbn [organize_loop]. rewrite bind_eq.
    destruct (organize_row id prev st) as [[] st1|e st1]; cbn [final] in *.
    + eapply linked_kept_trans; [exact Hk | now apply IH].
    + exact Hk.
Qed.

Lemma organize_times_keeps_linked n :
  forall st,
    NoDup (map block_id (blocks st)) ->
    linked_kept (blocks st) (blocks (final (organize_times n st))).
Proof.
  induction n as [|n IH]; intros st Hnd; [apply linked_kept_refl|].
  cbn [organize_times]. rewrite bind_eq.
  pose proof (organize_loop_keeps_linked (select_pending st) st Hnd
                (select_pending_ok st Hnd)) as H1.
  pose proof (organize_loop_same_headers (select_pending st) st) as (Hh & _).
  rewrite <- organize_blockchain_eq in H1, Hh.
  destruct (organize_blockchain st) as [[] st1|e st1]; cbn [final] in *.
  - eapply linked_kept_trans; [exact H1|]. apply IH.
    now rewrite (map_header_block_id _ _ Hh).
  - exact H1.
Qed.

(** X12.  On a table with unique [block_id]s the organizer never
    un-links a record and never changes the depth of a linked one:
    after any number of invocations, however they end, every row that
    was linked is still in the table with the depth it had and the same
    hash, parent hash and other header columns. *)
Theorem organize_keeps_linked_rows (n : nat) (st : state) (r : block_row)
    (d : N) :
  NoDup (map block_id (blocks st)) ->
  In r (blocks st) -> depth r = Some d ->
  exists r',
    In r' (blocks (final (organize_times n st)))
    /\ header r' = header r /\ depth r' = Some d.
Proof.
  intros Hnd Hin Hd. exact (organize_times_keeps_linked n st Hnd r d Hin Hd).
Qed.

Lemma organize_keeps_linked_rows_witness :
  exists r',
    In r' (blocks (final (organize_times 4 scenario2)))
    /\ header r' = header linked_B1 /\ depth r' = Some 1.
Proof.
  apply (organize_keeps_linked_rows 4 scenario2 linked_B1 1).
  - repeat constructor; simpl; intuition discriminate.
  - simpl. auto.
  - reflexivity.
Defined.

(** ** Orphans *)

Lemma organize_row_keeps_orphan b id prev st :
  span_left b = None -> span_right b = None ->
  (id = block_id b -> prev = prev_block_hash b) ->
  orphaned b st -> orphaned b (final (organize_row id prev st)).
Proof.
  intros Hl Hr Hid (Hnd & Hin & Hno).
  destruct (organize_row_cases id prev st)
    as [-> | [(c & ->) | (parent & pd & c & Hsel & _ & ->)]];
    cbn [final]; unfold orphaned; cbn [blocks with_blocks].
  - auto.
  - split; [|split].
    + rewrite map_block_id_fixed; [exact Hnd | apply shift_spans_block_id].
    + rewrite <- (shift_spans_unset c b Hl Hr). now apply in_map.
    + intros r' Hr'. apply in_map_iff in Hr'. destruct Hr' as (r & <- & Hrin).
      rewrite shift_spans_block_hash. now apply Hno.
  - apply select_parent_In in Hsel. destruct Hsel as (Hpin & Hph & _).
    assert (Hne : block_id b <> id).
    { intros He. apply (Hno parent Hpin). rewrite Hph. now apply Hid. }
    split; [|split].
    + rewrite map_block_id_fixed; [exact Hnd|].
      intros r. apply set_linked_block_id.
    + rewrite <- (set_linked_other (size_t_add pd 1) c c id b Hne).
      now apply in_map.
    + intros r' Hr'. apply in_map_iff in Hr'. destruct Hr' as (r & <- & Hrin).
      rewrite set_linked_block_hash. now apply Hno.
Qed.

Lemma organize_loop_keeps_orphan b res :
  span_left b = None -> span_right b = None ->
  (forall id prev, In (id, prev) res ->
                   id = block_id b -> prev = prev_block_hash b) ->
  forall st, orphaned b st -> orphaned b (final (organize_loop res st)).
Proof.
  intros Hl Hr. induction res as [|[id prev] res IH]; intros Hres st Ho.
  - exact Ho.
  - cbn [organize_loop]. rewrite bind_eq.
    pose proof (organize_row_keeps_orphan b id prev st Hl Hr
                  (Hres id prev (or_introl eq_refl)) Ho) as H1.
    destruct (organize_row id prev st) as [[] st1|e st1]; cbn [final] in *.
    + apply IH; [|exact H1]. intros id' prev' Hin. apply Hres. now right.
    + exact H1.
Qed.

Lemma organize_times_keeps_orphan b n :
  depth b = None -> span_left b = None -> span_right b = None ->
  forall st, orphaned b st -> orphaned b (final (organize_times n st)).
Proof.
  intros Hd Hl Hr. induction n as [|n IH]; intros st Ho; [exact Ho|].
  cbn [organize_times]. rewrite bind_eq.
  assert (H1 : orphaned b (final (organize_blockchain st))).
  { rewrite organize_blockchain_eq.
    apply organize_loop_keeps_orphan; auto.
    intros id prev Hin Hid. apply select_pending_In in Hin.
    destruct Hin as (r & Hrin & Hrid & Hrp & _).
    destruct Ho as (Hnd & Hbin & _).
    assert (r = b) by (eapply unique_block_id; eauto; congruence).
    subst r. now symmetry. }
  destruct (organize_blockchain st) as [[] st1|e st1]; cbn [final] in *.
  - now apply IH.
  - exact H1.
Qed.

(** X13.  A pending record whose [prev_block_hash] is the hash of no
    row of the table (on a table with unique [block_id]s) is never
    touched: visiting it in the loop returns and changes nothing, and
    after any number of invocations of the organizer, however they end,
    the row is in the table exactly as it was, without depth or
    interval. *)
Theorem orphan_stays_pending (b : block_row) (n : nat) (st : state) :
  NoDup (map block_id (blocks st)) ->
  In b (blocks st) ->
  depth b = None -> span_left b = None -> span_right b = None ->
  (forall r, In r (blocks st) -> block_hash r <> prev_block_hash b) ->
  organize_row (block_id b) (prev_block_hash b) st = Ret tt st
  /\ In b (blocks (final (organize_times n st))).
Proof.
  intros Hnd Hin Hd Hl Hr Hno. split.
  - rewrite organize_row_eq, select_parent_none; [reflexivity|].
    intros p Hp _. now apply Hno.
  - apply (organize_times_keeps_orphan b n Hd Hl Hr st). now split.
Qed.

Lemma orphan_stays_pending_witness :
  organize_row 2 "nowhere" (store_of [root_R; orphan_O])
  = Ret tt (store_of [root_R; orphan_O])
  /\ In orphan_O
       (blocks (final (organize_times 3 (store_of [root_R; orphan_O])))).
Proof.
  apply (orphan_stays_pending orphan_O 3 (store_of [root_R; orphan_O])).
  - repeat constructor; simpl; intuition discriminate.
  - simpl. auto.
  - reflexivity.
  - reflexivity.
  - reflexivity.
  - intros r [<- | [<- | []]]; discriminate.
Defined.

(** ** The two updates of the fork branch, on any table *)

Lemma shift_updates_eq c st :
  (update_blocks (shift_span_left c) ;; update_blocks (shift_span_right c)) st
  = Ret tt (with_blocks st (map (shift_spans c) (blocks st))
              (blocks_block_id_seq st)).
Proof.
  rewrite bind_eq. unfold update_blocks, exec.
  cbn [blocks blocks_block_id_seq with_blocks]. now rewrite map_map.
Qed.

(** X14.  The shift of the fork branch, with any slot and on any table,
    keeps containment: if the interval of [b] lay within the interval of
    [a] before the two updates, it does so after them (and both rows are
    still there, changed in their intervals only). *)
Theorem shift_keeps_containment (c : N) (st : state) (a b : block_row) :
  In a (blocks st) -> In b (blocks st) -> contains a b ->
  exists st',
    (update_blocks (shift_span_left c) ;; update_blocks (shift_span_right c))
      st = Ret tt st'
    /\ In (shift_spans c a) (blocks st') /\ In (shift_spans c b) (blocks st')
    /\ header (shift_spans c a) = header a
    /\ header (shift_spans c b) = header b
    /\ contains (shift_spans c a) (shift_spans c b).
Proof.
  intros Ha Hb (al & ar & bl & br & Hal & Har & Hbl & Hbr & H1 & H2 & H3).
  rewrite shift_updates_eq. eexists. split; [reflexivity|].
  cbn [blocks with_blocks].
  split; [now apply in_map|]. split; [now apply in_map|].
  split; [apply header_shift_spans|]. split; [apply header_shift_spans|].
  unfold contains. rewrite !shift_spans_left, !shift_spans_right.
  rewrite Hal, Har, Hbl, Hbr. unfold shifted.
  destruct (N.leb_spec c al), (N.leb_spec c ar), (N.leb_spec c bl),
    (N.leb_spec c br); try lia;
    do 4 eexists; repeat (split; [reflexivity|]); lia.
Qed.

Lemma shift_keeps_containment_witness :
  exists st',
    (update_blocks (shift_span_left 2) ;; update_blocks (shift_span_right 2))
      (store_of [wide_root; left_branch; right_branch]) = Ret tt st'
    /\ In (shift_spans 2 wide_root) (blocks st')
    /\ In (shift_spans 2 right_branch) (blocks st')
    /\ header (shift_spans 2 wide_root) = header wide_root
    /\ header (shift_spans 2 right_branch) = header right_branch
    /\ contains (shift_spans 2 wide_root) (shift_spans 2 right_branch).
Proof.
  apply (shift_keeps_containment 2 (store_of [wide_root; left_branch;
                                              right_branch])
           wide_root right_branch).
  - simpl. auto.
  - simpl. auto.
  - exists 0, 3, 2, 3. repeat split; try reflexivity; lia.
Defined.

(** X15.  The shift keeps branches apart and in order: if the interval
    of [a] ended before the interval of [b] began, it still does after
    the two updates, with any slot. *)
Theorem shift_keeps_order (c : N) (a b : block_row) :
  before a b -> before (shift_spans c a) (shift_spans c b).
Proof.
  intros (al & ar & bl & br & Hal & Har & Hbl & Hbr & H1 & H2 & H3).
  unfold before. rewrite !shift_spans_left, !shift_spans_right.
  rewrite Hal, Har, Hbl, Hbr. unfold shifted.
  destruct (N.leb_spec c al), (N.leb_spec c ar), (N.leb_spec c bl),
    (N.leb_spec c br); try lia;
    do 4 eexists; repeat (split; [reflexivity|]); lia.
Qed.

Lemma shift_keeps_order_witness :
  before (shift_spans 2 left_branch) (shift_spans 2 right_branch).
Proof.
  apply (shift_keeps_order 2 left_branch right_branch).
  exists 1, 1, 2, 3. repeat split; try reflexivity; lia.
Defined.

(** X16.  After the two updates of the fork branch no row of [blocks]
    has the slot as its [span_left] or as its [span_right]: every bound
    at or beyond the slot has moved up by one, every bound below it has
    stayed, and the slot itself is free. *)
Theorem shift_frees_the_slot (c : N) (st : state) :
  exists st',
    (update_blocks (shift_span_left c) ;; update_blocks (shift_span_right c))
      st = Ret tt st'
    /\ forall r, In r (blocks st') ->
         span_left r <> Some c /\ span_right r <> Some c.
Proof.
  rewrite shift_updates_eq. eexists. split; [reflexivity|].
  cbn [blocks with_blocks]. intros r' Hin.
  apply in_map_iff in Hin. destruct Hin as (r & <- & _).
  rewrite shift_spans_left, shift_spans_right. unfold shifted.
  destruct (span_left r) as [l|], (span_right r) as [x|];
    repeat match goal with
           | |- context [?a <=? ?b] => destruct (N.leb_spec a b)
           end;
    split; try discriminate; intros Heq; injection Heq as Heq; lia.
Qed.

(** ** The no-fork branch, on any table *)

(** X17.  When the parent found for a pending record [b] sits on a
    chain of its own ([span_left = span_right = c]), nothing lies
    deeper within its interval, and its depth plus one fits a [size_t],
    the loop body returns and links [b]: its depth becomes the parent's
    depth plus one and its interval [(c, c)], its other columns stay;
    rows with another [block_id] (the parent among them, [block_id]
    being unique) are not touched, and nothing else in the state
    changes. *)
Theorem no_fork_links_the_record (st : state) (b parent : block_row)
    (pd c : N) :
  NoDup (map block_id (blocks st)) ->
  In b (blocks st) -> depth b = None ->
  single_row (select_parent (prev_block_hash b) st) = Some (Some parent) ->
  depth parent = Some pd ->
  span_left parent = Some c -> span_right parent = Some c ->
  has_children c c pd st = false ->
  pd + 1 < SIZE_MAX_succ ->
  exists st' b',
    organize_row (block_id b) (prev_block_hash b) st = Ret tt st'
    /\ same_headers st st'
    /\ In b' (blocks st') /\ header b' = header b
    /\ depth b' = Some (pd + 1)
    /\ span_left b' = Some c /\ span_right b' = Some c
    /\ In parent (blocks st')
    /\ forall r, In r (blocks st) -> block_id r <> block_id b ->
                 In r (blocks st').
Proof.
  intros Hnd Hin Hd Hsel Hpd Hl Hr Hnone Hfit.
  rewrite organize_row_eq, Hsel, Hpd, Hl, Hr, Hnone, N.eqb_refl.
  rewrite size_t_add_small by exact Hfit.
  set (f := set_linked (pd + 1) c c (block_id b)).
  exists (with_blocks st (map f (blocks st)) (blocks_block_id_seq st)), (f b).
  split; [reflexivity|].
  assert (Hother : forall r, In r (blocks st) -> block_id r <> block_id b ->
                             In r (map f (blocks st))).
  { intros r Hrin Hne.
    rewrite <- (set_linked_other (pd + 1) c c (block_id b) r Hne).
    now apply in_map. }
  destruct (set_linked_hit (pd + 1) c c (block_id b) b eq_refl)
    as (H1 & H2 & H3).
  split; [apply same_headers_update; intros r; apply header_set_linked|].
  cbn [blocks with_blocks].
  split; [now apply in_map|].
  split; [apply header_set_linked|].
  repeat (split; [assumption|]).
  split; [|exact Hother].
  apply select_parent_In in Hsel. destruct Hsel as (Hpin & _ & Hpl).
  apply Hother; [exact Hpin|].
  eapply pending_not_linked_id; eauto.
Qed.

Lemma no_fork_links_the_record_witness :
  exists st' b',
    organize_row 2 "R" scenario1 = Ret tt st'
    /\ same_headers scenario1 st'
    /\ In b' (blocks st') /\ header b' = header pending_B1
    /\ depth b' = Some (0 + 1)
    /\ span_left b' = Some 0 /\ span_right b' = Some 0
    /\ In root_R (blocks st')
    /\ forall r, In r (blocks scenario1) -> block_id r <> 2 ->
                 In r (blocks st').
Proof.
  apply (no_fork_links_the_record scenario1 pending_B1 root_R 0 0).
  - repeat constructor; simpl; intuition discriminate.
  - simpl. auto.
  - reflexivity.
  - reflexivity.
  - reflexivity.
  - reflexivity.
  - reflexivity.
  - reflexivity.
  - reflexivity.
Defined.

(** ** Exceptions in the loop *)

Lemma organize_loop_app res1 :
  forall res2 st,
    organize_loop (res1 ++ res2) st
    = match organize_loop res1 st with
      | Ret _ st1 => organize_loop res2 st1
      | Throw e st1 => Throw e st1
      end.
Proof.
  induction res1 as [|[id prev] res1 IH]; intros res2 st; [reflexivity|].
  cbn [app organize_loop]. rewrite !bind_eq.
  destruct (organize_row id prev st) as [[] st1|e st1]; [apply IH|reflexivity].
Qed.

Lemma organize_row_throw_state id prev st e st' :
  organize_row id prev st = Throw e st' -> st' = st.
Proof.
  intros H.
  destruct (organize_row_cases id prev st)
    as [Hf | [(c & Hc) | (parent & pd & c & _ & _ & Hc)]].
  - rewrite H in Hf. exact Hf.
  - rewrite H in Hc. discriminate.
  - rewrite H in Hc. discriminate.
Qed.

(** X18.  An exception in the loop body writes nothing and ends the
    invocation where it stands: the rows visited before keep what was
    written for them (nothing is rolled back), the row that threw leaves
    the table as it found it, and the rows after it are not visited. *)
Theorem organize_loop_stops_at_exception (res1 res2 : list (N * string))
    (id : N) (prev : string) (st st1 st2 : state) (e : exn) :
  organize_loop res1 st = Ret tt st1 ->
  organize_row id prev st1 = Throw e st2 ->
  st2 = st1
  /\ organize_loop (res1 ++ (id, prev) :: res2) st = Throw e st1.
Proof.
  intros H1 H2.
  pose proof (organize_row_throw_state id prev st1 e st2 H2) as ->.
  split; [reflexivity|].
  rewrite organize_loop_app, H1. cbn [organize_loop].
  now rewrite bind_eq, H2.
Qed.

Lemma organize_loop_stops_at_exception_witness :
  final (organize_row 3 "R" uneven) = final (organize_row 3 "R" uneven)
  /\ organize_loop ([(3, "R"%string)] ++ (4, "W"%string) :: [(5, "C"%string)])
       uneven
     = Throw assertion_failure (final (organize_row 3 "R" uneven)).
Proof.
  apply (organize_loop_stops_at_exception [(3, "R"%string)]
           [(5, "C"%string)] 4 "W" uneven
           (final (organize_row 3 "R" uneven))
           (final (organize_row 3 "R" uneven)) assertion_failure).
  - reflexivity.
  - reflexivity.
Defined.

(** X19.  The loop body throws in three situations only, and the
    state is then as it was: the parent lookup selects several rows;
    the parent found has a [NULL] bound; or the parent found has no
    deeper row within its interval and its bounds differ, which is the
    failed assertion. *)
Theorem organize_row_exceptions (id : N) (prev : string) (st st' : state)
    (e : exn) :
  organize_row id prev st = Throw e st' ->
  st' = st
  /\ match e with
     | multiple_rows_query =>
         (2 <= List.length (select_parent prev st))%nat
     | null_value_fetch =>
         exists parent,
           single_row (select_parent prev st) = Some (Some parent)
           /\ (span_left parent = None \/ span_right parent = None)
     | assertion_failure =>
         exists parent pd pl pr,
           single_row (select_parent prev st) = Some (Some parent)
           /\ depth parent = Some pd
           /\ span_left parent = Some pl /\ span_right parent = Some pr
           /\ has_children pl pr pd st = false /\ pl <> pr
     | length_error => False
     end.
Proof.
  intros H. split; [eapply organize_row_throw_state; eauto|].
  rewrite organize_row_eq in H.
  destruct (single_row (select_parent prev st)) as [[parent|]|] eqn:Hsel.
  - pose proof (select_parent_In _ _ _ Hsel) as (_ & _ & Hlinked).
    unfold linked in Hlinked.
    destruct (depth parent) as [pd|] eqn:Hd; [|congruence].
    destruct (span_left parent) as [pl|] eqn:Hl.
    + destruct (span_right parent) as [pr|] eqn:Hr.
      * destruct (has_children pl pr pd st) eqn:Hc; [discriminate|].
        destruct (N.eqb_spec pl pr); [discriminate|].
        injection H as <- _. exists parent, pd, pl, pr. auto 10.
      * injection H as <- _. exists parent. auto.
    + assert (e = null_value_fetch) as ->
        by (destruct (span_right parent); now injection H).
      exists parent. auto.
  - discriminate.
  - injection H as <- _.
    destruct (select_parent prev st) as [|a [|b l]]; try discriminate.
    simpl. lia.
Qed.

Lemma organize_row_exceptions_witness :
  final (organize_row 3 "R" uneven) = final (organize_row 3 "R" uneven)
  /\ exists parent pd pl pr,
       single_row (select_parent "W" (final (organize_row 3 "R" uneven)))
       = Some (Some parent)
       /\ depth parent = Some pd
       /\ span_left parent = Some pl /\ span_right parent = Some pr
       /\ has_children pl pr pd (final (organize_row 3 "R" uneven)) = false
       /\ pl <> pr.
Proof.
  apply (organize_row_exceptions 4 "W" (final (organize_row 3 "R" uneven))
           (final (organize_row 3 "R" uneven)) assertion_failure).
  reflexivity.
Defined.

(** ** The order in which pending rows are visited *)

Lemma insert_asc_sorted x l :
  Sorted (fun a b => fst a <= fst b) l ->
  Sorted (fun a b => fst a <= fst b) (insert_asc x l).
Proof.
  induction l as [|y l IH]; intros Hs.
  - repeat constructor.
  - cbn [insert_asc]. destruct (N.leb_spec (fst x) (fst y)).
    + constructor; [exact Hs | now constructor].
    + inversion Hs as [|? ? Hs' Hhd]; subst. constructor; [now apply IH|].
      destruct l as [|z l]; cbn [insert_asc].
      * constructor. lia.
      * destruct (N.leb_spec (fst x) (fst z)); constructor;
          [lia | now inversion Hhd].
Qed.

Lemma order_by_block_id_sorted l :
  Sorted (fun a b => fst a <= fst b) (order_by_block_id l).
Proof.
  induction l as [|x l IH]; [constructor|].
  cbn [order_by_block_id fold_right]. now apply insert_asc_sorted.
Qed.

(** X20.  The rows the loop visits are exactly the rows of [blocks]
    whose depth is [NULL], each as often as it is in the table, by
    ascending [block_id]: a record that got its depth earlier is not
    visited again. *)
Theorem select_pending_scan_order (st : state) :
  Sorted (fun a b => fst a <= fst b) (select_pending st)
  /\ Permutation (select_pending st)
       (map (fun r => (block_id r, prev_block_hash r))
          (filter (fun r => Sql.is_null (depth r)) (blocks st)))
  /\ (forall id prev,
        In (id, prev) (select_pending st)
        <-> exists r, In r (blocks st) /\ depth r = None
                      /\ block_id r = id /\ prev_block_hash r = prev).
Proof.
  split; [apply order_by_block_id_sorted|].
  split; [apply order_by_block_id_perm|].
  intros id prev. split.
  - intros H. apply select_pending_In in H.
    destruct H as (r & H1 & H2 & H3 & H4). exists r. auto.
  - intros (r & Hin & Hd & <- & <-). unfold select_pending.
    eapply Permutation_in; [apply Permutation_sym, order_by_block_id_perm|].
    apply (in_map (fun r => (block_id r, prev_block_hash r))).
    apply filter_In. split; [exact Hin|]. now rewrite Hd.
Qed.

(** ** A backlog that arrived in order is linked in one pass *)

Lemma unique_block_hash rows a b :
  NoDup (map block_hash rows) -> In a rows -> In b rows ->
  block_hash a = block_hash b -> a = b.
Proof.
  induction rows as [|r rows IH]; simpl; [contradiction|].
  intros Hnd [Ha | Ha] [Hb | Hb] Heq; inversion Hnd as [|? ? Hnotin Hnd'];
    subst.
  - reflexivity.
  - exfalso. apply Hnotin. rewrite Heq. now apply in_map.
  - exfalso. apply Hnotin. rewrite <- Heq. now apply in_map.
  - now apply IH.
Qed.

Lemma select_parent_unique prev st p :
  NoDup (map block_hash (blocks st)) ->
  In p (blocks st) -> linked p -> block_hash p = prev ->
  single_row (select_parent prev st) = Some (Some p).
Proof.
  intros Hnd Hin Hl Hh.
  destruct (select_parent_single prev st Hnd) as ([p'|] & Hsel).
  - pose proof (select_parent_In _ _ _ Hsel) as (Hin' & Hh' & _).
    assert (p' = p) by (eapply unique_block_hash; eauto; congruence).
    now subst.
  - exfalso. exact (select_parent_None _ _ Hsel p Hin Hl Hh).
Qed.

Lemma has_children_none pl pr pd st :
  (forall r d, In r (blocks st) -> depth r = Some d -> d <= pd) ->
  has_children pl pr pd st = false.
Proof.
  intros H. rewrite has_children_existsb.
  destruct (existsb _ (blocks st)) eqn:E; [|reflexivity].
  apply existsb_exists in E. destruct E as (r & Hin & Hr).
  apply within_and_deeper_iff in Hr.
  destruct Hr as (l & r' & d & _ & _ & Hd & _ & _ & Hlt).
  specialize (H r d Hin Hd). lia.
Qed.

Lemma map_set_linked_others d l x id rows :
  (forall r, In r rows -> block_id r <> id) ->
  map (set_linked d l x id) rows = rows.
Proof.
  intros H. rewrite <- (map_id rows) at 2. apply map_ext_in.
  intros r Hin. apply set_linked_other. now apply H.
Qed.

Lemma pending_chain_block_id prev l :
  map block_id (pending_chain prev l) = map fst l.
Proof.
  revert prev. induction l as [|[id h] l IH]; intros prev; [reflexivity|].
  cbn [pending_chain map fst]. now rewrite IH.
Qed.

Lemma pending_chain_block_hash prev l :
  map block_hash (pending_chain prev l) = map snd l.
Proof.
  revert prev. induction l as [|[id h] l IH]; intros prev; [reflexivity|].
  cbn [pending_chain map snd]. now rewrite IH.
Qed.

Lemma pending_chain_depth prev l r :
  In r (pending_chain prev l) -> depth r = None.
Proof.
  revert prev. induction l as [|[id h] l IH]; intros prev; [intros []|].
  intros [<- | Hin]; [reflexivity | eauto].
Qed.

Lemma pending_chain_entries prev l :
  map (fun r => (block_id r, prev_block_hash r))
    (filter (fun r => Sql.is_null (depth r)) (pending_chain prev l))
  = chain_entries prev l.
Proof.
  revert prev. induction l as [|[id h] l IH]; intros prev; [reflexivity|].
  cbn [pending_chain filter header_row depth Sql.is_null map block_id
         prev_block_hash chain_entries].
  now rewrite IH.
Qed.

Lemma chain_entries_fst prev l : map fst (chain_entries prev l) = map fst l.
Proof.
  revert prev. induction l as [|[id h] l IH]; intros prev; [reflexivity|].
  cbn [chain_entries map fst]. now rewrite IH.
Qed.

Lemma order_by_block_id_ascending l :
  Sorted N.lt (map fst l) -> order_by_block_id l = l.
Proof.
  induction l as [|x l IH]; intros Hs; [reflexivity|].
  cbn [map] in Hs. inversion Hs as [|? ? Hs' Hhd]; subst.
  cbn [order_by_block_id fold_right]. fold (order_by_block_id l).
  rewrite (IH Hs'). destruct l as [|y l]; [reflexivity|].
  cbn [insert_asc]. cbn [map] in Hhd. inversion Hhd; subst.
  destruct (N.leb_spec (fst x) (fst y)); [reflexivity | lia].
Qed.

(** The loop on a table that consists of linked rows [pre] on chain id
    [c], none deeper than the tip, followed by a pending chain under
    the tip. *)
Lemma organize_loop_chain st0 seq c l :
  forall pre tip_hash d,
    NoDup (map block_hash (pre ++ pending_chain tip_hash l)) ->
    NoDup (map block_id (pre ++ pending_chain tip_hash l)) ->
    (exists tip, In tip pre /\ block_hash tip = tip_hash
                 /\ depth tip = Some d
                 /\ span_left tip = Some c /\ span_right tip = Some c) ->
    (forall r d', In r pre -> depth r = Some d' -> d' <= d) ->
    d + N.of_nat (List.length l) < SIZE_MAX_succ ->
    organize_loop (chain_entries tip_hash l)
      (with_blocks st0 (pre ++ pending_chain tip_hash l) seq)
    = Ret tt (with_blocks st0 (pre ++ linked_chain tip_hash (d + 1) c l) seq).
Proof.
  induction l as [|[id h] l IH];
    intros pre tip_hash d Hh Hi (tip & Htin & Hth & Htd & Htl & Htr) Hdeep Hfit.
  - reflexivity.
  - cbn [chain_entries organize_loop pending_chain linked_chain] in *.
    set (row := header_row id h tip_hash None None None) in *.
    set (st := with_blocks st0 (pre ++ row :: pending_chain h l) seq).
    assert (Hsel : single_row (select_parent tip_hash st) = Some (Some tip)).
    { apply select_parent_unique; auto.
      - subst st. cbn [blocks with_blocks]. apply in_or_app. now left.
      - unfold linked. congruence. }
    assert (Hnone : has_children c c d st = false).
    { apply has_children_none. subst st. cbn [blocks with_blocks].
      intros r d' Hin Hd. apply in_app_or in Hin.
      destruct Hin as [Hin | [<- | Hin]].
      - eauto.
      - discriminate.
      - apply pending_chain_depth in Hin. congruence. }
    rewrite bind_eq, organize_row_eq, Hsel, Htd, Htl, Htr, Hnone, N.eqb_refl.
    rewrite size_t_add_small by (cbn [List.length] in Hfit; lia).
    subst st. cbn [blocks with_blocks blocks_block_id_seq].
    rewrite map_app. cbn [map].
    assert (Hids : NoDup (map block_id pre ++ id :: map fst l)).
    { rewrite map_app in Hi. cbn [map] in Hi.
      now rewrite pending_chain_block_id in Hi. }
    rewrite (map_set_linked_others (d + 1) c c id pre).
    2:{ intros r Hin He. apply NoDup_remove_2 in Hids. apply Hids.
        apply in_or_app. left. rewrite <- He. now apply in_map. }
    rewrite (map_set_linked_others (d + 1) c c id (pending_chain h l)).
    2:{ intros r Hin He. apply NoDup_remove_2 in Hids. apply Hids.
        apply in_or_app. right. rewrite <- He, <- (pending_chain_block_id h).
        now apply in_map. }
    replace (set_linked (d + 1) c c id row)
      with (header_row id h tip_hash (Some (d + 1)) (Some c) (Some c))
      by (unfold set_linked, row, header_row; cbn [block_id];
          now rewrite N.eqb_refl).
    set (row' := header_row id h tip_hash (Some (d + 1)) (Some c) (Some c)).
    replace (pre ++ row' :: pending_chain h l)
      with ((pre ++ [row']) ++ pending_chain h l)
      by (now rewrite <- app_assoc).
    replace (pre ++ row' :: linked_chain h (d + 1 + 1) c l)
      with ((pre ++ [row']) ++ linked_chain h (d + 1 + 1) c l)
      by (now rewrite <- app_assoc).
    apply IH.
    + rewrite <- app_assoc. cbn [app].
      rewrite map_app in Hh |- *. exact Hh.
    + rewrite <- app_assoc. cbn [app].
      rewrite map_app in Hi |- *. exact Hi.
    + exists row'. split; [apply in_or_app; right; now left|].
      now repeat split.
    + intros r d' Hin Hd. apply in_app_or in Hin.
      destruct Hin as [Hin | [<- | []]].
      * specialize (Hdeep r d' Hin Hd). lia.
      * cbn in Hd. injection Hd as <-. lia.
    + cbn [List.length] in Hfit. lia.
Qed.



(** ** The rows of a transaction and of a block *)

Lemma add_batch_no_rows st : add_batch st no_rows = st.
Proof.
  destruct st. unfold add_batch. cbn. now rewrite !app_nil_r, !N.add_0_r.
Qed.

Lemma add_batch_app st a b :
  add_batch (add_batch st a) b = add_batch st (batch_app a b).
Proof.
  unfold add_batch, batch_app. cbn.
  f_equal; rewrite ?length_app, <- ?app_assoc; try reflexivity; lia.
Qed.

Lemma hex_serialized h : h <> [] -> serialize_bytes h = Some (hex h).
Proof.
  intros H. unfold hex.
  destruct (serialize_bytes_nonempty h H) as (s & ->). reflexivity.
Qed.

Lemma length_input_rows {opcode : Type} tid
    (ins : list (Message.transaction_input opcode)) :
  forall i input_id script_id,
    List.length (input_rows tid i input_id script_id ins) = List.length ins.
Proof.
  induction ins as [|a ins IH]; intros; cbn; [reflexivity | now rewrite IH].
Qed.

Lemma length_output_rows {opcode : Type} tid
    (outs : list (Message.transaction_output opcode)) :
  forall i output_id script_id,
    List.length (output_rows tid i output_id script_id outs)
    = List.length outs.
Proof.
  induction outs as [|a outs IH]; intros; cbn; [reflexivity | now rewrite IH].
Qed.

Section InsertRows.
Variable opcode : Type.
Variable opcode_to_string : opcode -> string.
Variable hash_transaction : Message.transaction opcode -> hash_digest.
Variable hash_block_header : Message.block opcode -> hash_digest.

Lemma insert_script_batch ops st :
  insert_script opcode_to_string ops st
  = Ret (script_sequence st + 1)
      (add_batch st
         (mk_batch [] [] []
            (map (operation_row opcode_to_string (script_sequence st + 1)) ops)
            [] 1)).
Proof.
  rewrite insert_script_eq. f_equal. destruct st. unfold add_batch. cbn.
  now rewrite !app_nil_r, !N.add_0_r.
Qed.

Lemma insert_input_batch input tid i st :
  Message.hash input <> [] ->
  insert_input opcode_to_string input tid i st
  = Ret tt
      (add_batch st
         (mk_batch []
            [Inputs.mk (inputs_input_id_seq st + 1) tid i
               (script_sequence st + 1) None (hex (Message.hash input))
               (Message.sequence input)]
            []
            (map (operation_row opcode_to_string (script_sequence st + 1))
               (Message.input_script input))
            [] 1)).
Proof.
  intros Hh. unfold insert_input.
  rewrite bind_eq, insert_script_batch, bind_eq, serialize_eq,
    (hex_serialized _ Hh).
  unfold exec. f_equal. destruct st. unfold add_batch. cbn.
  now rewrite !app_nil_r, !N.add_0_r.
Qed.

Lemma insert_output_batch output tid i st :
  insert_output opcode_to_string output tid i st
  = Ret tt
      (add_batch st
         (mk_batch [] []
            [Outputs.mk (outputs_output_id_seq st + 1) tid i
               (script_sequence st + 1) (Message.value output) "other" None]
            (map (operation_row opcode_to_string (script_sequence st + 1))
               (Message.output_script output))
            [] 1)).
Proof.
  unfold insert_output. rewrite bind_eq, insert_script_batch.
  unfold exec. f_equal. destruct st. unfold add_batch. cbn.
  now rewrite !app_nil_r, !N.add_0_r.
Qed.

(** The loop over the inputs of a transaction. *)
Lemma insert_inputs_batch tid ins :
  Forall (fun input => Message.hash input <> []) ins ->
  forall i st,
    for_each (fun i input => insert_input opcode_to_string input tid i)
      i ins st
    = Ret tt
        (add_batch st
           (mk_batch []
              (input_rows tid i (inputs_input_id_seq st) (script_sequence st)
                 ins)
              []
              (input_operations opcode_to_string (script_sequence st) ins)
              [] (List.length ins))).
Proof.
  induction 1 as [|input ins Hh _ IH]; intros i st.
  - cbn [for_each]. fold no_rows. now rewrite add_batch_no_rows.
  - cbn [for_each]. rewrite bind_eq, insert_input_batch by exact Hh.
    rewrite IH, add_batch_app. apply f_equal. apply f_equal.
    unfold batch_app. cbn. now rewrite ?N.add_0_r.
Qed.

(** The loop over its outputs. *)
Lemma insert_outputs_batch tid outs :
  forall i st,
    for_each (fun i output => insert_output opcode_to_string output tid i)
      i outs st
    = Ret tt
        (add_batch st
           (mk_batch [] []
              (output_rows tid i (outputs_output_id_seq st)
                 (script_sequence st) outs)
              (output_operations opcode_to_string (script_sequence st) outs)
              [] (List.length outs))).
Proof.
  induction outs as [|output outs IH]; intros i st.
  - cbn [for_each]. fold no_rows. now rewrite add_batch_no_rows.
  - cbn [for_each]. rewrite bind_eq, insert_output_batch.
    rewrite IH, add_batch_app. apply f_equal. apply f_equal.
    unfold batch_app. cbn. now rewrite ?N.add_0_r.
Qed.

Lemma insert_transaction_batch tx st :
  hashes_present hash_transaction tx ->
  insert_transaction opcode_to_string hash_transaction tx st
  = Ret (transactions_transaction_id_seq st + 1)
      (add_batch st
         (transaction_batch opcode_to_string hash_transaction
            (transactions_transaction_id_seq st) (inputs_input_id_seq st)
            (outputs_output_id_seq st) (script_sequence st) tx)).
Proof.
  intros (Hh & Hin). unfold insert_transaction.
  rewrite bind_eq, serialize_eq, (hex_serialized _ Hh), bind_eq.
  cbv beta zeta.
  set (row := Transactions.mk _ _ _ _).
  replace (with_transactions st (transactions st ++ [row])
             (transactions_transaction_id_seq st + 1))
    with (add_batch st (mk_batch [row] [] [] [] [] 0))
    by (destruct st; unfold add_batch; cbn;
        now rewrite !app_nil_r, !N.add_0_r).
  rewrite bind_eq, insert_inputs_batch by exact Hin.
  rewrite bind_eq, insert_outputs_batch.
  rewrite !add_batch_app. apply f_equal. apply f_equal.
  unfold batch_app, transaction_batch. cbn.
  rewrite ?N.add_0_r, ?app_nil_r, ?length_input_rows. reflexivity.
Qed.

(** The loop of [store(block)] over the transactions of the block. *)
Lemma store_transactions_batch block_id txs :
  Forall (hashes_present hash_transaction) txs ->
  forall i st,
    for_each
      (fun i transaction =>
         transaction_id <-
           insert_transaction opcode_to_string hash_transaction transaction ;;
         exec (fun st0 =>
                 with_transactions_parents st0
                   (transactions_parents st0
                    ++ [TransactionsParents.mk transaction_id block_id i])))
      i txs st
    = Ret tt
        (add_batch st
           (block_batch opcode_to_string hash_transaction block_id i
              (transactions_transaction_id_seq st) (inputs_input_id_seq st)
              (outputs_output_id_seq st) (script_sequence st) txs)).
Proof.
  induction 1 as [|tx txs Hp _ IH]; intros i st.
  - cbn [for_each block_batch]. now rewrite add_batch_no_rows.
  - cbn [for_each block_batch].
    rewrite bind_eq, bind_eq, insert_transaction_batch by exact Hp.
    unfold exec at 1.
    set (tb := transaction_batch _ _ _ _ _ _ tx).
    set (pb := mk_batch [] [] [] []
                 [TransactionsParents.mk
                    (transactions_transaction_id_seq st + 1) block_id i] 0).
    replace (with_transactions_parents (add_batch st tb) _)
      with (add_batch st (batch_app tb pb))
      by (rewrite <- add_batch_app; destruct st; unfold add_batch at 1;
          subst pb; cbn; now rewrite !app_nil_r, !N.add_0_r).
    rewrite IH, add_batch_app. apply f_equal. apply f_equal.
    apply f_equal.
    subst tb pb. unfold add_batch, batch_app, transaction_batch. cbn.
    rewrite ?app_nil_r, ?N.add_0_r, ?Nat.add_0_r, ?length_input_rows,
      ?length_output_rows.
    reflexivity.
Qed.



End InsertRows.



Example sample_block_rows :
  let st := final (store_block (fun _ : unit => "op"%string) (fun _ => [x02])
                     (fun _ => [x01]) sample_block empty_state) in
  transactions st = [Transactions.mk 1 "02" 1 0]
  /\ inputs st = [Inputs.mk 1 1 0 1 None "01" 0]
  /\ outputs st = [Outputs.mk 1 1 0 2 50 "other" None]
  /\ operations st = [Operations.mk "op" 1 None;
                      Operations.mk "op" 1 (Some "ff"%string);
                      Operations.mk "op" 2 (Some "0a"%string)]
  /\ transactions_parents st = [TransactionsParents.mk 1 1 0]
  /\ handled st = [false].
Proof. repeat split. Qed.
